(** * WrenchIT: the JSON repair pipeline of [src/extension.ts]

    A shallow embedding of the Fix and Format JSON pipeline
    ([cleanAndParseJson] and its building blocks [tryUnwrapString],
    [wrapAndUnescape], [unquoteJsonStringValues], [grafanaDeepClean]) together
    with the parts of the JavaScript platform they call: the string methods
    [trim], [slice], [indexOf], [startsWith], [endsWith], [replace], and
    [JSON.parse].

    A JavaScript string is a sequence of UTF-16 code units; it is modelled as
    a list of code units, each an [N].  Nothing below depends on a code unit
    being smaller than 2^16. *)

From Stdlib Require Import Strings.String Strings.Ascii.
From Stdlib Require Import List NArith ZArith PeanoNat Bool Lia.
Import ListNotations.

Set Warnings "-register-all,-abstract-large-number".

(* ================================================================== *)
(** * Code units and strings *)
(* ================================================================== *)

Definition char := N.
Definition str := list char.

Definition ceq (a b : char) : bool := N.eqb a b.
Arguments ceq : simpl never.

Definition DQUOTE    : char := 34%N.   (* double quote *)
Definition BACKSLASH : char := 92%N.   (* backslash *)
Definition SLASH     : char := 47%N.   (* / *)
Definition COLON     : char := 58%N.   (* : *)
Definition COMMA     : char := 44%N.   (* , *)
Definition LBRACE    : char := 123%N.  (* { *)
Definition RBRACE    : char := 125%N.  (* } *)
Definition LBRACK    : char := 91%N.   (* [ *)
Definition RBRACK    : char := 93%N.   (* ] *)
Definition CR        : char := 13%N.   (* \r *)
Definition LF        : char := 10%N.   (* \n *)
Definition BOM       : char := 65279%N. (* U+FEFF *)
Definition APOSTROPHE : char := 39%N.  (* apostrophe *)

(** [lit] reads a string literal of this file as a JavaScript string.  A
    literal here cannot hold the double quote, so in the argument of [lit] the
    apostrophe stands for it: [lit "{'a':1}"] is the seven code units of
    an object with one member a.  A backslash in the literal is one backslash. *)
Definition lit_char (a : Ascii.ascii) : char :=
  let c := Ascii.N_of_ascii a in if ceq c APOSTROPHE then DQUOTE else c.

Fixpoint lit (s : String.string) : str :=
  match s with
  | String.EmptyString => []
  | String.String a s' => lit_char a :: lit s'
  end.

Fixpoint str_eqb (a b : str) : bool :=
  match a, b with
  | [], [] => true
  | x :: a', y :: b' => ceq x y && str_eqb a' b'
  | _, _ => false
  end.

(** The longest prefix whose code units satisfy [p], and what follows it. *)
Fixpoint span (p : char -> bool) (s : str) : str * str :=
  match s with
  | [] => ([], [])
  | c :: s' =>
      if p c then let (run, rest) := span p s' in (c :: run, rest)
      else ([], s)
  end.

(** The longest suffix whose code units satisfy [p], and what precedes it:
    [(before, run)]. *)
Definition span_end (p : char -> bool) (s : str) : str * str :=
  let (run, before) := span p (rev s) in (rev before, rev run).

Fixpoint is_prefix (pat s : str) : bool :=
  match pat, s with
  | [], _ => true
  | p :: pat', c :: s' => ceq p c && is_prefix pat' s'
  | _ :: _, [] => false
  end.

Definition in_range (lo hi c : char) : bool := (N.leb lo c && N.leb c hi)%bool.

(* ================================================================== *)
(** * The string methods of the platform *)
(* ================================================================== *)

Module JS.

(** WhiteSpace and LineTerminator of ECMAScript: what [trim] removes and what
    [\s] matches. *)
Definition is_white_space (c : char) : bool :=
  (in_range 9 13 c || ceq c 32 || ceq c 160 || ceq c 5760
   || in_range 8192 8202 c || ceq c 8232 || ceq c 8233 || ceq c 8239
   || ceq c 8287 || ceq c 12288 || ceq c BOM)%N.

Definition trimStart (s : str) : str := snd (span is_white_space s).
Definition trimEnd (s : str) : str := fst (span_end is_white_space s).
Definition trim (s : str) : str := trimEnd (trimStart s).

Definition startsWith (s pat : str) : bool := is_prefix pat s.
Definition endsWith (s pat : str) : bool := is_prefix (rev pat) (rev s).

(** [s.slice(start, stop)]: a negative index counts from the end, every index
    is clamped to [0, length], and an empty range gives the empty string. *)
Definition slice_index (len i : Z) : Z :=
  if (i <? 0)%Z then Z.max (len + i) 0 else Z.min i len.

Definition slice (s : str) (start stop : Z) : str :=
  let len := Z.of_nat (length s) in
  let from := slice_index len start in
  let to := slice_index len stop in
  firstn (Z.to_nat (to - from)) (skipn (Z.to_nat from) s).

(** [s.slice(start)] *)
Definition slice_from (s : str) (start : Z) : str :=
  slice s start (Z.of_nat (length s)).

(** [s.indexOf(pat, from)]; [None] is the -1 of JavaScript. *)
Fixpoint indexOf_at (pat s : str) (i : nat) : option nat :=
  if is_prefix pat s then Some i
  else match s with
       | [] => None
       | _ :: s' => indexOf_at pat s' (S i)
       end.

Definition indexOf (s pat : str) (from : nat) : option nat :=
  indexOf_at pat (skipn from s) (Nat.min from (length s)).

(** ** [String.prototype.replace]

    A regular expression is embedded as a [matcher]: given the code unit just
    before the current position (for a lookbehind; [None] at the start of the
    input) and the input from the current position on, it says whether the
    expression matches AT this position, and then gives the replacement text
    (the replacement pattern with its [$n] filled in) and the number of code
    units the match consumes. *)
Definition matcher := option char -> str -> option (str * nat).

(** [s.replace(/re/g, ...)]: the leftmost match is replaced, the search resumes
    right after it, and the text between matches is copied.  [skip] counts the
    code units of the current match that are still to be passed over.  The
    lookbehind sees the input, not the output. *)
Fixpoint replaceAll_from (m : matcher) (prev : option char) (s : str)
    (skip : nat) : str :=
  match s with
  | [] => match skip with
          | O => match m prev [] with Some (rep, _) => rep | None => [] end
          | S _ => []
          end
  | c :: s' =>
      match skip with
      | S k => replaceAll_from m (Some c) s' k
      | O =>
          match m prev s with
          | Some (rep, S k) => rep ++ replaceAll_from m (Some c) s' k
          | Some (rep, O) => rep ++ c :: replaceAll_from m (Some c) s' 0
          | None => c :: replaceAll_from m (Some c) s' 0
          end
      end
  end.

Definition replaceAll (m : matcher) (s : str) : str :=
  replaceAll_from m None s 0.

(** [s.replace(x, ...)] without the [g] flag, or with a string [x]: only the
    leftmost match is replaced. *)
Fixpoint replaceFirst_from (m : matcher) (prev : option char) (s : str) : str :=
  match m prev s with
  | Some (rep, n) => rep ++ skipn n s
  | None =>
      match s with
      | [] => []
      | c :: s' => c :: replaceFirst_from m (Some c) s'
      end
  end.

Definition replaceFirst (m : matcher) (s : str) : str :=
  replaceFirst_from m None s.

(** A pattern that is a fixed text (a string argument of [replace], or a
    regular expression made of literal characters only). *)
Definition literally (pat rep : str) : matcher :=
  fun _ s => if is_prefix pat s then Some (rep, length pat) else None.

End JS.

(* ================================================================== *)
(** * [JSON.parse]

    The JSON grammar of ECMA-404 as [JSON.parse] reads it.  A thrown
    SyntaxError is [None].  Two things are kept abstract because nothing in
    the pipeline looks at them: a number is kept as its lexeme (the
    conversion to a double is not modelled), and an object is kept as its
    members in source order. *)
(* ================================================================== *)

Module JSON.

Inductive value : Type :=
| JNull
| JBool (b : bool)
| JNumber (lexeme : str)
| JString (s : str)
| JArray (items : list value)
| JObject (members : list (str * value)).

(** tab, line feed, carriage return, space *)
Definition is_ws (c : char) : bool :=
  (ceq c 9 || ceq c 10 || ceq c 13 || ceq c 32)%N.

Fixpoint skip_ws (s : str) : str :=
  match s with
  | c :: s' => if is_ws c then skip_ws s' else s
  | [] => []
  end.

Definition is_digit (c : char) : bool := (in_range 48 57 c)%N.

Definition hex_digit (c : char) : option N :=
  (if in_range 48 57 c then Some (c - 48)
   else if in_range 65 70 c then Some (c - 55)
   else if in_range 97 102 c then Some (c - 87)
   else None)%N.

Definition hex4 (a b c d : char) : option char :=
  match hex_digit a, hex_digit b, hex_digit c, hex_digit d with
  | Some x, Some y, Some z, Some w => Some (((x * 16 + y) * 16 + z) * 16 + w)%N
  | _, _, _, _ => None
  end.

(** The code unit a one-letter escape stands for. *)
Definition escape_char (e : char) : option char :=
  (if ceq e DQUOTE then Some DQUOTE
   else if ceq e BACKSLASH then Some BACKSLASH
   else if ceq e SLASH then Some SLASH
   else if ceq e 98 then Some 8          (* b *)
   else if ceq e 102 then Some 12        (* f *)
   else if ceq e 110 then Some 10        (* n *)
   else if ceq e 114 then Some 13        (* r *)
   else if ceq e 116 then Some 9         (* t *)
   else None)%N.

Definition cons_fst (c : char) (r : option (str * str)) : option (str * str) :=
  match r with
  | Some (t, rest) => Some (c :: t, rest)
  | None => None
  end.

(** The characters of a string literal after its opening quote, up to and
    including the closing quote: the decoded string and the rest of the
    input.  A raw control character, a bad escape and a missing closing quote
    are errors. *)
Fixpoint lex_string (s : str) : option (str * str) :=
  match s with
  | [] => None
  | c :: s' =>
      if ceq c DQUOTE then Some ([], s')
      else if ceq c BACKSLASH then
        match s' with
        | [] => None
        | e :: s'' =>
            if ceq e 117%N then               (* u *)
              match s'' with
              | h1 :: h2 :: h3 :: h4 :: s3 =>
                  match hex4 h1 h2 h3 h4 with
                  | Some u => cons_fst u (lex_string s3)
                  | None => None
                  end
              | _ => None
              end
            else
              match escape_char e with
              | Some x => cons_fst x (lex_string s'')
              | None => None
              end
        end
      else if N.ltb c 32 then None
      else cons_fst c (lex_string s')
  end.

Definition MINUS : char := 45%N.
Definition PLUS  : char := 43%N.
Definition DOT   : char := 46%N.

(** A number is an optional minus sign, an integer part (a single 0, or a
    digit 1-9 followed by any digits), an optional fraction (a dot and at
    least one digit) and an optional exponent (e or E, an optional sign and at
    least one digit).  Each lexer gives the lexeme and the rest of the
    input. *)
Definition lex_int (s : str) : option (str * str) :=
  match s with
  | d :: r =>
      if ceq d 48%N then Some ([d], r)
      else if (in_range 49 57 d)%N then
        let (ds, r') := span is_digit r in Some (d :: ds, r')
      else None
  | [] => None
  end.

Definition lex_frac (s : str) : option (str * str) :=
  match s with
  | c :: r =>
      if ceq c DOT then
        match span is_digit r with
        | ([], _) => None
        | (ds, r') => Some (c :: ds, r')
        end
      else Some ([], s)
  | [] => Some ([], s)
  end.

Definition lex_exp (s : str) : option (str * str) :=
  match s with
  | c :: r =>
      if (ceq c 101 || ceq c 69)%N then          (* e E *)
        let (sign, r1) :=
          match r with
          | g :: r0 => if ceq g PLUS || ceq g MINUS then ([g], r0) else ([], r)
          | [] => ([], r)
          end in
        match span is_digit r1 with
        | ([], _) => None
        | (ds, r') => Some (c :: sign ++ ds, r')
        end
      else Some ([], s)
  | [] => Some ([], s)
  end.

Definition lex_number (s : str) : option (str * str) :=
  let (sign, s1) :=
    match s with
    | c :: r => if ceq c MINUS then ([c], r) else ([], s)
    | [] => ([], s)
    end in
  match lex_int s1 with
  | None => None
  | Some (i, s2) =>
      match lex_frac s2 with
      | None => None
      | Some (f, s3) =>
          match lex_exp s3 with
          | None => None
          | Some (e, s4) => Some (sign ++ i ++ f ++ e, s4)
          end
      end
  end.

Inductive outcome (A : Type) : Type :=
| Parsed (a : A)
| SyntaxError
| OutOfFuel.
Arguments Parsed {A} a.
Arguments SyntaxError {A}.
Arguments OutOfFuel {A}.

(** Recursive descent.  Every call spends one unit of [fuel]; [parse] below
    gives enough of it, see [parse_fuel_enough]. [parse_elements] and
    [parse_members] start at the first element or member, after white
    space. *)
Fixpoint parse_value (fuel : nat) (s : str) : outcome (value * str) :=
  match fuel with
  | O => OutOfFuel
  | S fuel =>
      match s with
      | [] => SyntaxError
      | c :: s' =>
          if ceq c DQUOTE then
            match lex_string s' with
            | Some (t, rest) => Parsed (JString t, rest)
            | None => SyntaxError
            end
          else if ceq c LBRACK then
            match skip_ws s' with
            | [] => SyntaxError
            | d :: rest =>
                if ceq d RBRACK then Parsed (JArray [], rest)
                else parse_elements fuel (d :: rest) []
            end
          else if ceq c LBRACE then
            match skip_ws s' with
            | [] => SyntaxError
            | d :: rest =>
                if ceq d RBRACE then Parsed (JObject [], rest)
                else parse_members fuel (d :: rest) []
            end
          else if is_prefix (lit "true") s then
            Parsed (JBool true, skipn 4 s)
          else if is_prefix (lit "false") s then
            Parsed (JBool false, skipn 5 s)
          else if is_prefix (lit "null") s then
            Parsed (JNull, skipn 4 s)
          else
            match lex_number s with
            | Some (n, rest) => Parsed (JNumber n, rest)
            | None => SyntaxError
            end
      end
  end

with parse_elements (fuel : nat) (s : str) (acc : list value)
    : outcome (value * str) :=
  match fuel with
  | O => OutOfFuel
  | S fuel =>
      match parse_value fuel s with
      | Parsed (v, rest) =>
          match skip_ws rest with
          | [] => SyntaxError
          | d :: rest' =>
              if ceq d COMMA then parse_elements fuel (skip_ws rest') (v :: acc)
              else if ceq d RBRACK then Parsed (JArray (rev (v :: acc)), rest')
              else SyntaxError
          end
      | SyntaxError => SyntaxError
      | OutOfFuel => OutOfFuel
      end
  end

with parse_members (fuel : nat) (s : str) (acc : list (str * value))
    : outcome (value * str) :=
  match fuel with
  | O => OutOfFuel
  | S fuel =>
      match s with
      | [] => SyntaxError
      | q :: s' =>
          if ceq q DQUOTE then
            match lex_string s' with
            | None => SyntaxError
            | Some (key, rest) =>
                match skip_ws rest with
                | [] => SyntaxError
                | c :: rest1 =>
                    if ceq c COLON then
                      match parse_value fuel (skip_ws rest1) with
                      | Parsed (v, rest2) =>
                          match skip_ws rest2 with
                          | [] => SyntaxError
                          | d :: rest3 =>
                              if ceq d COMMA then
                                parse_members fuel (skip_ws rest3)
                                  ((key, v) :: acc)
                              else if ceq d RBRACE then
                                Parsed (JObject (rev ((key, v) :: acc)), rest3)
                              else SyntaxError
                          end
                      | SyntaxError => SyntaxError
                      | OutOfFuel => OutOfFuel
                      end
                    else SyntaxError
                end
            end
          else SyntaxError
      end
  end.

(** [JSON.parse(text)]: white space, one value, white space, end of input. *)
Definition parse (text : str) : option value :=
  match parse_value (2 * length text + 1) (skip_ws text) with
  | Parsed (v, rest) =>
      match skip_ws rest with
      | [] => Some v
      | _ :: _ => None
      end
  | SyntaxError => None
  | OutOfFuel => None
  end.

End JSON.

(* ================================================================== *)
(** * The regular expressions of [extension.ts], as matchers *)
(* ================================================================== *)

Module Re.

(** [[A-Za-z0-9._-]] *)
Definition is_word_like (c : char) : bool :=
  (in_range 65 90 c || in_range 97 122 c || in_range 48 57 c
   || ceq c 46 || ceq c 95 || ceq c 45)%N.

(** [(?<![A-Za-z0-9._-])] fails exactly when the previous code unit exists
    and is in the class. *)
Definition lookbehind_ok (prev : option char) : bool :=
  match prev with
  | Some c => negb (is_word_like c)
  | None => true
  end.

(** [[\\/]]: a backslash or a slash *)
Definition is_slashy (c : char) : bool := ceq c BACKSLASH || ceq c SLASH.

Definition is_slash (c : char) : bool := ceq c SLASH.

Definition not_quote (c : char) : bool := negb (ceq c DQUOTE).

(** the class of every code unit but the double quote and the slash *)
Definition not_quote_nor_slash (c : char) : bool :=
  negb (ceq c DQUOTE) && negb (ceq c SLASH).

(** The expression of lines 155, 307 and 333, with replacement [$1$2$3]:
    the lookbehind, a greedy run [[\\/]+], a double quote (group 1), a lazy
    run of code units other than the double quote (group 2), a greedy run
    [[\\/]+], a double quote (group 3).

    The first run is greedy and must be followed by a quote, so it is the
    whole run of slashes and backslashes from the current position.  Neither
    the lazy group nor the second run can hold a quote, so the closing quote is
    the first quote after the opening one; the lazy group takes the shortest
    text that leaves only slashes and backslashes (at least one) before that
    quote, which is the text between the quotes without its longest run of
    trailing slashes and backslashes. *)
Definition symmetric : JS.matcher := fun prev s =>
  if lookbehind_ok prev then
    match span is_slashy s with
    | ((_ :: _) as run, q :: after) =>
        if ceq q DQUOTE then
          match span not_quote after with
          | (body, _ :: _) =>
              match span_end is_slashy body with
              | (content, _ :: _) =>
                  Some (DQUOTE :: content ++ [DQUOTE],
                        length run + 1 + length body + 1)
              | (_, []) => None
              end
          | (_, []) => None
          end
        else None
    | _ => None
    end
  else None.

(** The expressions of lines 149, 312 and 334, with the empty replacement:
    the lookbehind, a greedy run [X+] and a lookahead for a double quote, for
    a class [X] of slash characters: [[\\/]] in the deep cleaner, [\/] in
    strategy 5.  The run is the whole run of [X] from the current position,
    and the code unit after it must be a quote, which is not consumed. *)
Definition leading (X : char -> bool) : JS.matcher := fun prev s =>
  if lookbehind_ok prev then
    match span X s with
    | ((_ :: _) as run, q :: _) =>
        if ceq q DQUOTE then Some ([], length run) else None
    | _ => None
    end
  else None.

(** The expression of lines 340 and 348, whose replacement is group 1 between
    two double quotes: a double quote, the whole run of code units that are
    neither double quote nor slash (group 1), the whole run of slashes (at
    least one), a double quote. *)
Definition trailing_slash : JS.matcher := fun _ s =>
  match s with
  | q :: s1 =>
      if ceq q DQUOTE then
        let (content, after) := span not_quote_nor_slash s1 in
        match span is_slash after with
        | ((_ :: _) as run, q2 :: _) =>
            if ceq q2 DQUOTE then
              Some (DQUOTE :: content ++ [DQUOTE],
                    1 + length content + length run + 1)
            else None
        | _ => None
        end
      else None
  | [] => None
  end.

(** [/,\s*([}\]])/] with replacement [$1], line 357 *)
Definition trailing_comma : JS.matcher := fun _ s =>
  match s with
  | c :: s1 =>
      if ceq c COMMA then
        match span JS.is_white_space s1 with
        | (ws, b :: _) =>
            if ceq b RBRACE || ceq b RBRACK then Some ([b], 1 + length ws + 1)
            else None
        | (_, []) => None
        end
      else None
  | [] => None
  end.

(** The expression of line 292, a U+FEFF at the start of the input, with the
    empty replacement. *)
Definition strip_bom (s : str) : str :=
  match s with
  | c :: s' => if ceq c BOM then s' else s
  | [] => []
  end.

(** The expressions of lines 353 and 354, with replacement [$1], for an
    opening bracket [O] and a closing bracket [C]: the whole string is a
    double quote, then group 1 ([O], anything, [C]), then a double quote; the
    four are different positions. *)
Definition strip_outer_quotes (O C : char) (s : str) : str :=
  if (4 <=? length s)
     && is_prefix [DQUOTE; O] s && is_prefix [DQUOTE; C] (rev s)
  then JS.slice s 1%Z (-1)%Z
  else s.

End Re.

(* ================================================================== *)
(** * Building blocks used by the strategies *)
(* ================================================================== *)

(** [tryUnwrapString], lines 191-201.  Falling out of the [try] with a value
    that is not a string reaches the final [return s]. *)
Definition tryUnwrapString (s : str) : str :=
  if JS.startsWith s [DQUOTE] && JS.endsWith s [DQUOTE] then
    match JSON.parse s with
    | Some inner =>
        match inner with
        | JSON.JString t => t
        | _ => s
        end
    | None => JS.slice s 1%Z (-1)%Z
    end
  else s.

(** [wrapAndUnescape], lines 212-215.  [None] is the SyntaxError that
    [JSON.parse] throws; the function does not catch it. *)
Definition wrapAndUnescape (s : str) : option str :=
  match JSON.parse ([DQUOTE] ++ s ++ [DQUOTE]) with
  | Some result =>
      match result with
      | JSON.JString t => Some t
      | _ => Some s
      end
  | None => None
  end.

(** ** [unquoteJsonStringValues], lines 228-274 *)

(** The depth after the code unit [c], lines 250-251.  The loop only gets
    here with [depth > 0]. *)
Definition next_depth (open close : char) (depth : nat) (c : char) : nat :=
  if ceq c open then S depth
  else if ceq c close then pred depth
  else depth.

(** The bracket-balancing loop, lines 249-253:
    [while (pos < result.length && depth > 0)].  [rest] is the input from
    position [pos] on; the value is the final [pos]. *)
Fixpoint balance (open close : char) (rest : str) (depth pos : nat) : nat :=
  match rest with
  | [] => pos
  | c :: rest' =>
      if depth =? 0 then pos
      else balance open close rest' (next_depth open close depth c) (S pos)
  end.

(** How one turn of a loop ends. *)
Inductive scan_result : Type :=
| Unchanged
| Changed (result : str).

(** The search loop, lines 238-268: [while (searchFrom < result.length)].
    [None] means the fuel ran out before the loop ended. *)
Fixpoint scan (fuel : nat) (open close : char) (result : str)
    (searchFrom : nat) : option scan_result :=
  if searchFrom <? length result then
    match fuel with
    | O => None
    | S fuel =>
        let pattern := [COLON; DQUOTE; open] in
        match JS.indexOf result pattern searchFrom with
        | None => Some Unchanged
        | Some idx =>
            let quotePos := idx + 1 in
            let openPos := idx + 2 in
            let pos := balance open close (skipn (openPos + 1) result)
                         1 (openPos + 1) in
            let closePos := pos - 1 in
            if (closePos + 1 <? length result)
               && match nth_error result (closePos + 1) with
                  | Some c => ceq c DQUOTE
                  | None => false
                  end
            then
              Some (Changed
                (JS.slice result 0%Z (Z.of_nat quotePos)
                 ++ JS.slice result (Z.of_nat (quotePos + 1))
                                    (Z.of_nat (closePos + 1))
                 ++ JS.slice_from result (Z.of_nat (closePos + 2))))
            else scan fuel open close result (idx + 1)
        end
    end
  else Some Unchanged.

(** The body of [while (changed)], lines 233-270: the braces, then, if they
    changed nothing, the brackets.  Each search loop starts at 0 and moves
    forward at every turn, so the length of the string is enough fuel
    ([scan_fuel]). *)
Definition pass (result : str) : option scan_result :=
  match scan (length result) LBRACE RBRACE result 0 with
  | Some Unchanged => scan (length result) LBRACK RBRACK result 0
  | r => r
  end.

(** [while (changed)], lines 232-271 *)
Fixpoint unquote_while (fuel : nat) (result : str) : option str :=
  match fuel with
  | O => None
  | S fuel =>
      match pass result with
      | Some (Changed result') => unquote_while fuel result'
      | Some Unchanged => Some result
      | None => None
      end
  end.

(** The fuel given here is enough on every input ([unquote_total]), so the
    second branch is never taken. *)
Definition unquoteJsonStringValues (s : str) : str :=
  match unquote_while (S (length s)) s with
  | Some result => result
  | None => s
  end.

(** ** [grafanaDeepClean], lines 288-360 *)

(** One turn of the unescape loop, lines 324-327. *)
Definition unescapeOnce (result : str) : str :=
  JS.replaceAll (JS.literally [BACKSLASH; BACKSLASH] [BACKSLASH])
    (JS.replaceAll (JS.literally [BACKSLASH; SLASH] [SLASH])
      (JS.replaceAll (JS.literally [BACKSLASH; DQUOTE] [DQUOTE]) result)).

(** The unescape loop, lines 320-329:
    [while (prev !== result && iterations < 5)].  The value is the final
    [result] and [iterations]; [None] means the fuel ran out. *)
Fixpoint unescape_while (fuel : nat) (prev result : str) (iterations : nat)
    : option (str * nat) :=
  if negb (str_eqb prev result) && (iterations <? 5) then
    match fuel with
    | O => None
    | S fuel =>
        unescape_while fuel result (unescapeOnce result) (S iterations)
    end
  else Some (result, iterations).

(** Five units of fuel are enough ([unescape_while_total]), so the second
    branch is never taken. *)
Definition unescapeLoop (result : str) : str * nat :=
  match unescape_while 5 [] result 0 with
  | Some r => r
  | None => (result, 0)
  end.

Definition grafanaDeepClean (s : str) : str :=
  let result := s in
  (* Remove UTF-8 BOM if present *)
  let result := Re.strip_bom result in
  (* Normalize line endings *)
  let result := JS.replaceAll (JS.literally [CR] [LF])
                  (JS.replaceAll (JS.literally [CR; LF] [LF]) result) in
  (* Unwrap one or two levels of outer string wrapping *)
  let result := tryUnwrapString result in
  let result := tryUnwrapString result in
  (* Symmetrical slash/backslash wrapping *)
  let result := JS.replaceAll Re.symmetric result in
  (* Slashes immediately before a double quote *)
  let result := JS.replaceAll (Re.leading Re.is_slashy) result in
  let result := JS.replaceFirst (JS.literally (lit "///'") [DQUOTE]) result in
  let result := JS.replaceFirst (JS.literally (lit "//'") [DQUOTE]) result in
  let result := JS.replaceFirst (JS.literally (lit "/'") [DQUOTE]) result in
  (* Multi-pass unescape *)
  let result := fst (unescapeLoop result) in
  (* Second slash-removal pass *)
  let result := JS.replaceAll Re.symmetric result in
  let result := JS.replaceAll (Re.leading Re.is_slashy) result in
  (* Trailing slashes inside string values *)
  let result := JS.replaceAll Re.trailing_slash result in
  (* Unquote string values that contain unescaped objects or arrays *)
  let result := unquoteJsonStringValues result in
  (* Second trailing-slash pass *)
  let result := JS.replaceAll Re.trailing_slash result in
  (* Strip outer quotes wrapping the whole document *)
  let result := Re.strip_outer_quotes LBRACK RBRACK
                  (Re.strip_outer_quotes LBRACE RBRACE result) in
  (* Remove trailing commas before a closing brace or bracket *)
  let result := JS.replaceAll Re.trailing_comma result in
  result.

(* ================================================================== *)
(** * The pipeline: [cleanAndParseJson], lines 137-180 *)
(* ================================================================== *)

Inductive ParseResult : Type :=
| ParseOk (value : JSON.value) (bestAttempt : str)
| ParseFail (error : str) (bestAttempt : str).

(** A strategy gives a candidate, or throws ([None]). *)
Definition strategy := str -> option str.

Definition strategy1 : strategy := fun s => Some s.
Definition strategy2 : strategy := fun s => Some (JS.trim s).
Definition strategy3 : strategy := fun s => Some (tryUnwrapString (JS.trim s)).
Definition strategy4 : strategy := fun s => wrapAndUnescape (JS.trim s).
Definition strategy5 : strategy := fun s =>
  Some (JS.replaceAll (JS.literally [BACKSLASH; DQUOTE] [DQUOTE])
         (JS.replaceAll (Re.leading Re.is_slash) (JS.trim s))).
Definition strategy6 : strategy := fun s =>
  Some (JS.replaceAll Re.symmetric (JS.trim s)).
Definition strategy7 : strategy := fun s => Some (grafanaDeepClean (JS.trim s)).
Definition strategy8 : strategy := fun s =>
  Some (tryUnwrapString (grafanaDeepClean (JS.trim s))).

Definition strategies : list strategy :=
  [strategy1; strategy2; strategy3; strategy4;
   strategy5; strategy6; strategy7; strategy8].

(** Ninguna estrategia de limpieza produjo JSON v(a acute)lido. *)
Definition error_message : str :=
  lit "Ninguna estrategia de limpieza produjo JSON v" ++ [225%N] ++ lit "lido.".

(** The [for] loop over the strategies, lines 164-173, and the final
    [return], lines 175-179.  A strategy that throws leaves [bestAttempt] as it
    was; a candidate that does not parse has been recorded by then. *)
Fixpoint try_strategies (todo : list strategy) (raw bestAttempt : str)
    : ParseResult :=
  match todo with
  | [] => ParseFail error_message bestAttempt
  | strat :: todo' =>
      match strat raw with
      | None => try_strategies todo' raw bestAttempt
      | Some cleaned =>
          match JSON.parse cleaned with
          | Some parsed => ParseOk parsed cleaned
          | None => try_strategies todo' raw cleaned
          end
      end
  end.

Definition cleanAndParseJson (raw : str) : ParseResult :=
  try_strategies strategies raw raw.

(* ================================================================== *)
(** * Specification-side notions *)
(* ================================================================== *)

(** [s] starts and ends with a double quote (a single double quote does). *)
Definition quote_delimited (s : str) : Prop :=
  JS.startsWith s [DQUOTE] = true /\ JS.endsWith s [DQUOTE] = true.

(** What the contract of the string-literal unwrapper allows as the result for
    the input [s]. *)
Inductive unwrap_spec (s : str) : str -> Prop :=
| unwrap_decoded (t : str) :
    quote_delimited s -> JSON.parse s = Some (JSON.JString t) ->
    unwrap_spec s t
| unwrap_stripped :
    quote_delimited s -> JSON.parse s = None ->
    unwrap_spec s (tl (removelast s))
| unwrap_untouched :
    ~ quote_delimited s ->
    unwrap_spec s s.

(** A double quote that no backslash escapes: reading from the left, a
    backslash takes the code unit after it with it. *)
Fixpoint has_unescaped_quote (s : str) : bool :=
  match s with
  | [] => false
  | c :: s' =>
      if ceq c DQUOTE then true
      else if ceq c BACKSLASH then
        match s' with
        | [] => false
        | _ :: s'' => has_unescaped_quote s''
        end
      else has_unescaped_quote s'
  end.

(** Replacing every occurrence of the two code units [a b] by [c], from the
    left and without looking again at what was replaced. *)
Fixpoint replace_pair (a b c : char) (s : str) : str :=
  match s with
  | [] => []
  | x :: t =>
      match t with
      | [] => [x]
      | y :: s' =>
          if ceq x a && ceq y b then c :: replace_pair a b c s'
          else x :: replace_pair a b c t
      end
  end.

(** The text [content] between double quotes, each double quote preceded by
    [n] backslashes. *)
Definition escaped (n : nat) (content : str) : str :=
  repeat BACKSLASH n ++ [DQUOTE] ++ content
  ++ repeat BACKSLASH n ++ [DQUOTE].

Definition escaped_key (n : nat) : str := escaped n (lit "key").

(** A text without backslash and double quote. *)
Definition plain (content : str) : bool :=
  forallb (fun c => negb (ceq c BACKSLASH) && negb (ceq c DQUOTE)) content.

(** ** The nested-JSON unquoter, in the words of its contract *)

(** How often the code unit [c] occurs in [s]. *)
Fixpoint count (c : char) (s : str) : nat :=
  match s with
  | [] => 0
  | x :: s' => (if ceq x c then 1 else 0) + count c s'
  end.

(** [inner] is what stands between an opening bracket and the closing bracket
    that matches it, for brackets of one kind counted from depth [d] (the
    opening bracket itself gives [d = 1]): no prefix of [inner] closes more
    brackets than [d - 1] plus those it opens, and [inner] as a whole closes
    exactly [d - 1] more than it opens, so that the next closing bracket
    brings the depth to zero. *)
Definition balanced_from (open close : char) (d : nat) (inner : str) : Prop :=
  (forall p q, inner = p ++ q -> count close p < d + count open p) /\
  count close inner + 1 = d + count open inner.

Definition balanced_inner (open close : char) (inner : str) : Prop :=
  balanced_from open close 1 inner.

(** The two kinds of brackets of line 235. *)
Inductive bracket_kind : char -> char -> Prop :=
| braces : bracket_kind LBRACE RBRACE
| brackets : bracket_kind LBRACK RBRACK.

(** One removal: a colon, a double quote, a bracketed text whose closing
    bracket matches its opening bracket, a double quote; the two double quotes
    go and nothing else changes. *)
Inductive unquote_step : str -> str -> Prop :=
| unquote_step_intro (open close : char) (pre inner post : str) :
    bracket_kind open close ->
    balanced_inner open close inner ->
    unquote_step
      (pre ++ [COLON; DQUOTE; open] ++ inner ++ [close; DQUOTE] ++ post)
      (pre ++ [COLON; open] ++ inner ++ [close] ++ post).

(** Any number of removals, one after the other. *)
Inductive unquote_steps : str -> str -> Prop :=
| unquote_done (s : str) : unquote_steps s s
| unquote_more (s s' s'' : str) :
    unquote_step s s' -> unquote_steps s' s'' -> unquote_steps s s''.

(** [s] still holds an occurrence that can be removed. *)
Definition unquotable (s : str) : Prop := exists s', unquote_step s s'.

(** ** The slash strippers, in the words of their contracts *)

(** Every slash or backslash of [s] that stands directly before a double
    quote stands directly after a code unit of the class of the lookbehind
    (letters, digits, dot, underscore, hyphen); [prev] is the code unit before
    [s].  This is how slashes stand in a quoted URL: those of the scheme are
    followed by the host, and one that ends the value follows a letter of the
    host or of the path. *)
Fixpoint slash_quote_guarded (prev : option char) (s : str) : bool :=
  match s with
  | [] => true
  | c :: s' =>
      (if Re.is_slashy c && JS.startsWith s' [DQUOTE]
       then negb (Re.lookbehind_ok prev)
       else true)
      && slash_quote_guarded (Some c) s'
  end.


(** The matcher [m] matches nowhere in [s], [prev] being the code unit before
    [s]. *)
Fixpoint no_match (m : JS.matcher) (prev : option char) (s : str) : Prop :=
  m prev s = None /\
  match s with
  | [] => True
  | c :: s' => no_match m (Some c) s'
  end.

(** ** One level of string escaping *)

(** A backslash before every double quote and every backslash of [t]: what
    the comment of [wrapAndUnescape] calls escaped content with no outer
    wrapper. *)
Fixpoint escape_once (t : str) : str :=
  match t with
  | [] => []
  | c :: t' =>
      if ceq c DQUOTE || ceq c BACKSLASH then BACKSLASH :: c :: escape_once t'
      else c :: escape_once t'
  end.

(** A code unit below U+0020. *)
Definition is_control (c : char) : bool := N.ltb c 32.

Definition not_backslash (c : char) : bool := negb (ceq c BACKSLASH).

(** Lines 312-315 of [grafanaDeepClean]: the leading rule and the three
    replacements of a fixed text, each of the three at its first occurrence
    only. *)
Definition leadingSlashPass (result : str) : str :=
  JS.replaceFirst (JS.literally (lit "/'") [DQUOTE])
    (JS.replaceFirst (JS.literally (lit "//'") [DQUOTE])
       (JS.replaceFirst (JS.literally (lit "///'") [DQUOTE])
          (JS.replaceAll (Re.leading Re.is_slashy) result))).

(** The text both kinds of result carry in their field [bestAttempt]. *)
Definition bestAttempt (r : ParseResult) : str :=
  match r with
  | ParseOk _ b => b
  | ParseFail _ b => b
  end.

Definition not_slashy (c : char) : bool := negb (Re.is_slashy c).

Definition not_slash (c : char) : bool := negb (Re.is_slash c).

Definition not_comma_nor_space (c : char) : bool :=
  negb (ceq c COMMA || JS.is_white_space c).

Definition not_comma (c : char) : bool := negb (ceq c COMMA).

(* ================================================================== *)
(** * Basic facts *)
(* ================================================================== *)

Lemma ceq_spec (a b : char) : reflect (a = b) (ceq a b).
Proof. apply N.eqb_spec. Qed.

Lemma ceq_refl (a : char) : ceq a a = true.
Proof. apply N.eqb_refl. Qed.

Lemma ceq_eq (a b : char) : ceq a b = true -> a = b.
Proof. apply N.eqb_eq. Qed.

Lemma str_eqb_spec (a b : str) : reflect (a = b) (str_eqb a b).
Proof.
  revert b; induction a as [|x a IH]; intros [|y b]; simpl;
    try (constructor; congruence).
  destruct (ceq_spec x y) as [->|Hxy]; simpl.
  - destruct (IH b) as [->|Hab]; constructor; congruence.
  - constructor; congruence.
Qed.

Lemma span_app (p : char -> bool) (s : str) :
  fst (span p s) ++ snd (span p s) = s.
Proof.
  induction s as [|c s IH]; simpl; [reflexivity|].
  destruct (p c); simpl; [|reflexivity].
  destruct (span p s); simpl in *; now rewrite IH.
Qed.

Lemma span_all (p : char -> bool) (s : str) :
  forallb p (fst (span p s)) = true.
Proof.
  induction s as [|c s IH]; simpl; [reflexivity|].
  destruct (p c) eqn:E; simpl; [|reflexivity].
  destruct (span p s); simpl in *; now rewrite E.
Qed.

Lemma span_stop (p : char -> bool) (s : str) (c : char) (rest : str) :
  snd (span p s) = c :: rest -> p c = false.
Proof.
  induction s as [|d s IH]; simpl; [discriminate|].
  destruct (p d) eqn:E; simpl.
  - destruct (span p s); simpl in *; exact IH.
  - intros [= -> _]; exact E.
Qed.

(** [span] on a run followed by a code unit that ends it. *)
Lemma span_run (p : char -> bool) (run : str) (c : char) (rest : str) :
  forallb p run = true -> p c = false ->
  span p (run ++ c :: rest) = (run, c :: rest).
Proof.
  intros Hrun Hc; induction run as [|d run IH]; simpl.
  - now rewrite Hc.
  - simpl in Hrun; apply andb_prop in Hrun as [Hd Hrun].
    now rewrite Hd, (IH Hrun).
Qed.


(** ** [slice] *)

Lemma slice_nonneg (s : str) (a b : nat) :
  a <= b <= length s ->
  JS.slice s (Z.of_nat a) (Z.of_nat b) = firstn (b - a) (skipn a s).
Proof.
  intros H; unfold JS.slice, JS.slice_index.
  destruct (Z.ltb_spec (Z.of_nat a) 0); [lia|].
  destruct (Z.ltb_spec (Z.of_nat b) 0); [lia|].
  rewrite !Z.min_l by lia.
  f_equal; [lia|]. f_equal; lia.
Qed.

Lemma slice_from_nonneg (s : str) (a : nat) :
  a <= length s -> JS.slice_from s (Z.of_nat a) = skipn a s.
Proof.
  intros H; unfold JS.slice_from.
  rewrite slice_nonneg by lia.
  apply firstn_all2; rewrite length_skipn; lia.
Qed.

(** [s.slice(1, -1)] drops the first and the last code unit. *)
Lemma slice_1_m1 (s : str) : JS.slice s 1%Z (-1)%Z = tl (removelast s).
Proof.
  destruct s as [|a s]; [reflexivity|].
  destruct (@exists_last _ (a :: s)) as (m & z & E); [discriminate|].
  rewrite E, removelast_last.
  unfold JS.slice, JS.slice_index.
  change (1 <? 0)%Z with false; change (-1 <? 0)%Z with true; cbv iota.
  assert (L : Z.of_nat (length (m ++ [z])) = (Z.of_nat (length m) + 1)%Z)
    by (rewrite length_app; simpl; lia).
  rewrite L.
  destruct m as [|b m].
  - reflexivity.
  - assert (L2 : Z.of_nat (length (b :: m)) = (Z.of_nat (length m) + 1)%Z)
      by (simpl length; lia).
    rewrite L2.
    replace (Z.to_nat (Z.min 1 (Z.of_nat (length m) + 1 + 1))) with 1 by lia.
    replace (Z.to_nat (Z.max (Z.of_nat (length m) + 1 + 1 + -1) 0
                       - Z.min 1 (Z.of_nat (length m) + 1 + 1)))
      with (length m) by lia.
    cbn [app skipn tl].
    now rewrite firstn_app, Nat.sub_diag, firstn_all, firstn_O, app_nil_r.
Qed.

Lemma slice_1_m1_outer (a b : char) (mid : str) :
  JS.slice (a :: mid ++ [b]) 1%Z (-1)%Z = mid.
Proof.
  rewrite slice_1_m1.
  change (a :: mid ++ [b]) with ((a :: mid) ++ [b]).
  now rewrite removelast_last.
Qed.

(* ================================================================== *)
(** * [JSON.parse] on a text that starts with a double quote *)
(* ================================================================== *)

Lemma parse_quoted (s : str) :
  JSON.parse (DQUOTE :: s) =
  match JSON.lex_string s with
  | Some (t, rest) =>
      match JSON.skip_ws rest with
      | [] => Some (JSON.JString t)
      | _ :: _ => None
      end
  | None => None
  end.
Proof.
  unfold JSON.parse.
  rewrite Nat.add_1_r.
  cbn [JSON.skip_ws JSON.is_ws JSON.parse_value].
  change (JSON.is_ws DQUOTE) with false; cbv iota.
  change (ceq DQUOTE DQUOTE) with true; cbv iota.
  destruct (JSON.lex_string s) as [[t rest]|]; reflexivity.
Qed.

Lemma startsWith_quote (s : str) :
  JS.startsWith s [DQUOTE] = true -> exists s', s = DQUOTE :: s'.
Proof.
  destruct s as [|c s]; simpl; [discriminate|].
  rewrite andb_true_r; intros H; apply ceq_eq in H; subst; eauto.
Qed.

(** A text that starts with a double quote parses to a string or not at
    all. *)
Lemma parse_quoted_is_string (s : str) (v : JSON.value) :
  JS.startsWith s [DQUOTE] = true -> JSON.parse s = Some v ->
  exists t, v = JSON.JString t.
Proof.
  intros Hs Hp; apply startsWith_quote in Hs as [s' ->].
  rewrite parse_quoted in Hp.
  destruct (JSON.lex_string s') as [[t rest]|]; [|discriminate].
  destruct (JSON.skip_ws rest); [|discriminate].
  injection Hp as <-; eauto.
Qed.

(* ================================================================== *)
(** * The pipeline *)
(* ================================================================== *)

(** C1.  Whenever [JSON.parse] accepts the raw input [s] with value [v], the
    pipeline succeeds at strategy 1: the outcome is a success whose cleaned
    text is [s] itself and whose value is [v], the value of parsing [s]
    directly. *)
Theorem valid_json_is_returned_as_is (s : str) (v : JSON.value) :
  JSON.parse s = Some v ->
  cleanAndParseJson s = ParseOk v s.
Proof.
  intros H; unfold cleanAndParseJson, strategies.
  cbn [try_strategies strategy1]; now rewrite H.
Qed.

Lemma valid_json_is_returned_as_is_witness :
  cleanAndParseJson (lit "{'a':[1,true]}")
  = ParseOk (JSON.JObject [(lit "a", JSON.JArray [JSON.JNumber (lit "1");
                                                  JSON.JBool true])])
            (lit "{'a':[1,true]}").
Proof.
  apply (@valid_json_is_returned_as_is (lit "{'a':[1,true]}")).
  vm_compute; reflexivity.
Defined.

(** One step of the loop over the strategies, for a strategy that gives a
    candidate which does not parse: the candidate becomes the best attempt. *)
Lemma try_strategies_reject (strat : strategy) (todo : list strategy)
    (raw best cleaned : str) :
  strat raw = Some cleaned -> JSON.parse cleaned = None ->
  try_strategies (strat :: todo) raw best = try_strategies todo raw cleaned.
Proof. intros H1 H2; cbn [try_strategies]; now rewrite H1, H2. Qed.

(** One step of the loop for a strategy that throws: it is skipped and the
    best attempt stays. *)
Lemma try_strategies_throw (strat : strategy) (todo : list strategy)
    (raw best : str) :
  strat raw = None ->
  try_strategies (strat :: todo) raw best = try_strategies todo raw best.
Proof. intros H1; cbn [try_strategies]; now rewrite H1. Qed.

(** C2.  When no candidate of the eight strategies parses, the pipeline
    returns (it is a total function) the failure outcome, and its best attempt
    is the candidate of strategy 8, [tryUnwrapString (grafanaDeepClean
    (trim raw))]. *)
Theorem failure_keeps_last_candidate (raw : str) :
  (forall strat cleaned,
      In strat strategies -> strat raw = Some cleaned ->
      JSON.parse cleaned = None) ->
  cleanAndParseJson raw
  = ParseFail error_message (tryUnwrapString (grafanaDeepClean (JS.trim raw))).
Proof.
  intros H; unfold cleanAndParseJson, strategies in *.
  assert (step : forall strat todo best cleaned,
             In strat
               [strategy1; strategy2; strategy3; strategy4;
                strategy5; strategy6; strategy7; strategy8] ->
             strat raw = Some cleaned ->
             try_strategies (strat :: todo) raw best
             = try_strategies todo raw cleaned).
  { intros strat todo best cleaned Hin Hs.
    apply try_strategies_reject; eauto. }
  rewrite (step strategy1 _ _ raw) by (simpl; auto).
  rewrite (step strategy2 _ _ (JS.trim raw)) by (simpl; auto).
  rewrite (step strategy3 _ _ (tryUnwrapString (JS.trim raw)))
    by (simpl; auto).
  destruct (strategy4 raw) as [c4|] eqn:E4.
  - rewrite (step strategy4 _ _ c4) by (simpl; auto).
    rewrite (step strategy5 _ _ _ ltac:(simpl; auto 10) eq_refl).
    rewrite (step strategy6 _ _ _ ltac:(simpl; auto 10) eq_refl).
    rewrite (step strategy7 _ _ _ ltac:(simpl; auto 10) eq_refl).
    rewrite (step strategy8 _ _ _ ltac:(simpl; auto 10) eq_refl).
    reflexivity.
  - rewrite try_strategies_throw by exact E4.
    rewrite (step strategy5 _ _ _ ltac:(simpl; auto 10) eq_refl).
    rewrite (step strategy6 _ _ _ ltac:(simpl; auto 10) eq_refl).
    rewrite (step strategy7 _ _ _ ltac:(simpl; auto 10) eq_refl).
    rewrite (step strategy8 _ _ _ ltac:(simpl; auto 10) eq_refl).
    reflexivity.
Qed.

(** Truncated JSON: an object that is never closed. *)
Lemma failure_keeps_last_candidate_witness :
  cleanAndParseJson (lit "{'a':1")
  = ParseFail error_message
      (tryUnwrapString (grafanaDeepClean (JS.trim (lit "{'a':1")))).
Proof.
  apply (@failure_keeps_last_candidate (lit "{'a':1")).
  intros strat cleaned Hin Hs.
  unfold strategies in Hin; simpl in Hin.
  repeat (destruct Hin as [<-|Hin];
          [vm_compute in Hs; first [discriminate Hs | injection Hs as <-];
           vm_compute; reflexivity|]).
  contradiction.
Defined.

(* ================================================================== *)
(** * The string-literal unwrapper *)
(* ================================================================== *)

(** C8.  [tryUnwrapString] is a total function (it never throws) and on every
    [s] its result is the one the contract names: the decoded string when [s]
    is quote-delimited and decodes; [s] without its first and last code unit
    when [s] is quote-delimited and does not decode; [s] itself when [s] is
    not quote-delimited.  The three cases leave nothing out, because a text
    that starts with a double quote can only parse to a string. *)
Theorem tryUnwrapString_contract (s : str) :
  unwrap_spec s (tryUnwrapString s).
Proof.
  unfold tryUnwrapString.
  destruct (JS.startsWith s [DQUOTE]) eqn:Hs;
    [destruct (JS.endsWith s [DQUOTE]) eqn:He|]; cbn [andb].
  - destruct (JSON.parse s) as [v|] eqn:Hp.
    + destruct (parse_quoted_is_string s v Hs Hp) as [t ->].
      now apply unwrap_decoded.
    + rewrite slice_1_m1. now apply unwrap_stripped.
  - apply unwrap_untouched. intros [_ H]; congruence.
  - apply unwrap_untouched. intros [H _]; congruence.
Qed.

(** C10.  On the string that is one double quote, both tests of
    [tryUnwrapString] hold, the decode fails, [slice(1, -1)] of a string of
    length one is empty, and so the result is the empty string. *)
Theorem tryUnwrapString_single_quote :
  JS.startsWith [DQUOTE] [DQUOTE] = true /\
  JS.endsWith [DQUOTE] [DQUOTE] = true /\
  JSON.parse [DQUOTE] = None /\
  JS.slice [DQUOTE] 1%Z (-1)%Z = [] /\
  tryUnwrapString [DQUOTE] = [].
Proof. repeat split; vm_compute; reflexivity. Qed.

(* ================================================================== *)
(** * The escape-wrap decoder *)
(* ================================================================== *)

Lemma hex_digit_plain (h : char) (x : N) :
  JSON.hex_digit h = Some x ->
  ceq h DQUOTE = false /\ ceq h BACKSLASH = false.
Proof.
  unfold JSON.hex_digit, in_range, ceq, DQUOTE, BACKSLASH.
  intros H; split; apply N.eqb_neq; intros ->; vm_compute in H; discriminate.
Qed.

Lemma has_unescaped_quote_escape (c e : char) (s : str) :
  ceq c DQUOTE = false -> ceq c BACKSLASH = true ->
  has_unescaped_quote (c :: e :: s) = has_unescaped_quote s.
Proof. intros H1 H2; cbn [has_unescaped_quote]; now rewrite H1, H2. Qed.

Lemma has_unescaped_quote_plain (c : char) (s : str) :
  ceq c DQUOTE = false -> ceq c BACKSLASH = false ->
  has_unescaped_quote (c :: s) = has_unescaped_quote s.
Proof. intros H1 H2; cbn [has_unescaped_quote]; now rewrite H1, H2. Qed.

Lemma hex4_plain (a b c d u : char) (pre : str) :
  JSON.hex4 a b c d = Some u ->
  has_unescaped_quote (a :: b :: c :: d :: pre) = has_unescaped_quote pre.
Proof.
  unfold JSON.hex4.
  destruct (JSON.hex_digit a) eqn:Ha; [|discriminate].
  destruct (JSON.hex_digit b) eqn:Hb; [|discriminate].
  destruct (JSON.hex_digit c) eqn:Hc; [|discriminate].
  destruct (JSON.hex_digit d) eqn:Hd; [|discriminate].
  intros _.
  apply hex_digit_plain in Ha as [Ha1 Ha2], Hb as [Hb1 Hb2],
                           Hc as [Hc1 Hc2], Hd as [Hd1 Hd2].
  now rewrite !has_unescaped_quote_plain.
Qed.

Lemma cons_fst_some (c : char) (r : option (str * str)) (t rest : str) :
  JSON.cons_fst c r = Some (t, rest) ->
  exists t', r = Some (t', rest) /\ t = c :: t'.
Proof.
  destruct r as [[t' rest']|]; simpl; [|discriminate].
  intros [= <- <-]; eauto.
Qed.

(** What the string lexer consumes ends with the double quote that closes the
    literal, and holds no unescaped double quote before it. *)
Lemma lex_string_consumed (n : nat) :
  forall s t rest,
    length s <= n ->
    JSON.lex_string s = Some (t, rest) ->
    exists pre, s = pre ++ DQUOTE :: rest /\ has_unescaped_quote pre = false.
Proof.
  induction n as [|n IH]; intros [|c s] t rest Hn; simpl in Hn;
    try (simpl; discriminate); [lia|].
  cbn [JSON.lex_string].
  destruct (ceq_spec c DQUOTE) as [->|Hq].
  { intros [= <- <-]. now exists []. }
  assert (Hq' : ceq c DQUOTE = false) by (destruct (ceq_spec c DQUOTE); congruence).
  destruct (ceq c BACKSLASH) eqn:Hb.
  - destruct s as [|e s]; [discriminate|].
    destruct (ceq e 117%N).
    + destruct s as [|h1 [|h2 [|h3 [|h4 s3]]]]; try discriminate.
      destruct (JSON.hex4 h1 h2 h3 h4) as [u|] eqn:Hx; [|discriminate].
      intros H; apply cons_fst_some in H as (t' & H & _).
      apply IH in H as (pre & -> & Hpre); [|simpl in Hn; lia].
      exists (c :: e :: h1 :: h2 :: h3 :: h4 :: pre); split; [reflexivity|].
      rewrite has_unescaped_quote_escape by assumption.
      now rewrite (hex4_plain _ _ _ _ _ pre Hx).
    + destruct (JSON.escape_char e) as [x|]; [|discriminate].
      intros H; apply cons_fst_some in H as (t' & H & _).
      apply IH in H as (pre & -> & Hpre); [|simpl in Hn; lia].
      exists (c :: e :: pre); split; [reflexivity|].
      now rewrite has_unescaped_quote_escape.
  - destruct (c <? 32)%N; [discriminate|].
    intros H; apply cons_fst_some in H as (t' & H & _).
    apply IH in H as (pre & -> & Hpre); [|lia].
    exists (c :: pre); split; [reflexivity|].
    now rewrite has_unescaped_quote_plain.
Qed.

Lemma skip_ws_ends_with_quote (s : str) :
  JSON.skip_ws (s ++ [DQUOTE]) <> [].
Proof.
  induction s as [|c s IH]; cbn [app JSON.skip_ws].
  - change (JSON.is_ws DQUOTE) with false; discriminate.
  - destruct (JSON.is_ws c); [exact IH|discriminate].
Qed.

(** The decode of the synthesized literal throws when the text between the
    added quotes holds an unescaped double quote. *)
Lemma wrapAndUnescape_throws (s : str) :
  has_unescaped_quote s = true -> wrapAndUnescape s = None.
Proof.
  intros Hs; unfold wrapAndUnescape.
  change ([DQUOTE] ++ s ++ [DQUOTE]) with (DQUOTE :: s ++ [DQUOTE]).
  rewrite parse_quoted.
  destruct (JSON.lex_string (s ++ [DQUOTE])) as [[t rest]|] eqn:E;
    [|reflexivity].
  apply (lex_string_consumed _ _ _ _ (le_n _)) in E as (pre & E & Hpre).
  destruct (@exists_last _ (DQUOTE :: rest)) as (m & z & Em); [discriminate|].
  rewrite Em, app_assoc in E.
  apply app_inj_tail in E as [E <-].
  destruct m as [|q m].
  - (* the closing quote found is the added one: then [pre] is [s] *)
    rewrite app_nil_r in E; congruence.
  - injection Em as <- ->.
    destruct (JSON.skip_ws (m ++ [DQUOTE])) eqn:W; [|reflexivity].
    now apply skip_ws_ends_with_quote in W.
Qed.




(* ================================================================== *)
(** * The unescape loop of the deep cleaner *)
(* ================================================================== *)

(** A global replace of a two-unit text by a one-unit text is [replace_pair]. *)
Lemma replaceAll_pair (a b c : char) (n : nat) :
  forall s prev, length s <= n ->
    JS.replaceAll_from (JS.literally [a; b] [c]) prev s 0
    = replace_pair a b c s.
Proof.
  induction n as [|n IH]; intros [|x s] prev Hn; simpl in Hn;
    try reflexivity; [lia|].
  cbn [JS.replaceAll_from replace_pair]; unfold JS.literally at 1.
  cbn [is_prefix length].
  destruct s as [|y s].
  - rewrite andb_false_r. reflexivity.
  - rewrite andb_true_r. unfold ceq at 1 2.
    rewrite (N.eqb_sym a x), (N.eqb_sym b y).
    fold (ceq x a); fold (ceq y b).
    destruct (ceq x a && ceq y b).
    + cbn [app JS.replaceAll_from]. f_equal. apply IH. simpl in Hn; lia.
    + f_equal. apply IH. simpl in *; lia.
Qed.

Lemma unescapeOnce_pairs (s : str) :
  unescapeOnce s
  = replace_pair BACKSLASH BACKSLASH BACKSLASH
      (replace_pair BACKSLASH SLASH SLASH
         (replace_pair BACKSLASH DQUOTE DQUOTE s)).
Proof.
  unfold unescapeOnce, JS.replaceAll.
  now rewrite !(replaceAll_pair _ _ _ _ _ _ (le_n _)).
Qed.

(** The loop never needs more fuel than the turns the cap leaves. *)
Lemma unescape_while_fuel (fuel : nat) :
  forall prev result iterations,
    5 - iterations <= fuel ->
    unescape_while fuel prev result iterations <> None.
Proof.
  induction fuel as [|fuel IH]; intros prev result it Hf; cbn [unescape_while].
  - destruct (it <? 5) eqn:E.
    + apply Nat.ltb_lt in E; lia.
    + rewrite andb_false_r; discriminate.
  - destruct (negb (str_eqb prev result) && (it <? 5)); [|discriminate].
    apply IH; lia.
Qed.

Lemma unescape_while_total (s : str) :
  unescape_while 5 [] s 0 = Some (unescapeLoop s).
Proof.
  unfold unescapeLoop.
  destruct (unescape_while 5 [] s 0) as [r|] eqn:E; [reflexivity|].
  now apply unescape_while_fuel in E.
Qed.

(** What the loop has done when it ends after [n] turns, having started turn
    [iterations + 1] with [prev] and [result]. *)
Lemma unescape_while_trace (fuel : nat) :
  forall prev result iterations r n,
    unescape_while fuel prev result iterations = Some (r, n) ->
    exists k,
      n = iterations + k /\
      r = Nat.iter k unescapeOnce result /\
      (iterations <= 5 -> n <= 5) /\
      (n < 5 ->
       (k = 0 /\ prev = result) \/
       (exists k', k = S k' /\ Nat.iter k' unescapeOnce result = r)) /\
      (1 <= k -> prev <> result) /\
      (forall j, S j < k ->
         Nat.iter j unescapeOnce result <> Nat.iter (S j) unescapeOnce result).
Proof.
  assert (stop : forall prev result it,
             (prev = result \/ 5 <= it) ->
             exists k,
               it = it + k /\
               result = Nat.iter k unescapeOnce result /\
               (it <= 5 -> it <= 5) /\
               (it < 5 ->
                (k = 0 /\ prev = result) \/
                (exists k', k = S k' /\
                            Nat.iter k' unescapeOnce result = result)) /\
               (1 <= k -> prev <> result) /\
               (forall j, S j < k ->
                  Nat.iter j unescapeOnce result
                  <> Nat.iter (S j) unescapeOnce result)).
  { intros prev result it H. exists 0. rewrite Nat.add_0_r.
    repeat split; auto; intros; try lia.
    left; split; [reflexivity|]. destruct H; [assumption|lia]. }
  induction fuel as [|fuel IH]; intros prev result it r n;
    cbn [unescape_while].
  - destruct (str_eqb_spec prev result) as [E|E]; cbn [negb andb].
    + intros [= <- <-]. apply stop; auto.
    + destruct (it <? 5) eqn:L; [discriminate|].
      apply Nat.ltb_ge in L.
      intros [= <- <-]. apply stop; auto.
  - destruct (str_eqb_spec prev result) as [E|E]; cbn [negb andb].
    + intros [= <- <-]. apply stop; auto.
    + destruct (it <? 5) eqn:L.
      * apply Nat.ltb_lt in L.
        intros H; apply IH in H as (k & -> & -> & Hcap & Hstop & Hrun & Hgo).
        exists (S k). rewrite Nat.iter_succ_r.
        repeat split; [lia|lia| | auto |].
        -- intros Hn; right.
           destruct (Hstop ltac:(lia)) as [[-> Hfix]|(k' & -> & Hfix)].
           ++ exists 0; split; [reflexivity|]. exact Hfix.
           ++ exists (S k'); split; [reflexivity|].
              now rewrite Nat.iter_succ_r.
        -- intros j Hj. destruct j as [|j].
           ++ cbn [Nat.iter nat_rect]. apply Hrun; lia.
           ++ rewrite (Nat.iter_succ_r (S j)), (Nat.iter_succ_r j).
              apply Hgo; lia.
      * apply Nat.ltb_ge in L.
        intros [= <- <-]. apply stop; auto.
Qed.

(** ** Escaped quotes, one layer per turn *)

Lemma replace_pair_other (a b c x : char) (t : str) :
  ceq x a = false ->
  replace_pair a b c (x :: t) = x :: replace_pair a b c t.
Proof.
  intros H; cbn [replace_pair]. rewrite H. now destruct t.
Qed.

Lemma replace_pair_miss (a b c y : char) (t : str) :
  ceq y b = false ->
  replace_pair a b c (a :: y :: t) = a :: replace_pair a b c (y :: t).
Proof.
  intros H; cbn [replace_pair]. now rewrite H, andb_false_r.
Qed.

Lemma replace_pair_hit (a b c : char) (t : str) :
  replace_pair a b c (a :: b :: t) = c :: replace_pair a b c t.
Proof. cbn [replace_pair]. now rewrite !ceq_refl. Qed.

Lemma replace_pair_plain (b c : char) (content s : str) :
  plain content = true ->
  replace_pair BACKSLASH b c (content ++ s)
  = content ++ replace_pair BACKSLASH b c s.
Proof.
  induction content as [|x content IH]; intros H; [reflexivity|].
  cbn [plain forallb] in H. apply andb_prop in H as [Hx H].
  apply andb_prop in Hx as [Hx _]. apply negb_true_iff in Hx.
  cbn [app]. rewrite replace_pair_other by assumption.
  now rewrite IH.
Qed.

(** Backslash-quote becomes quote: the run before the quote loses one. *)
Lemma unescape_quote_run (n : nat) (rest : str) :
  replace_pair BACKSLASH DQUOTE DQUOTE (repeat BACKSLASH n ++ DQUOTE :: rest)
  = repeat BACKSLASH (pred n) ++ DQUOTE
    :: replace_pair BACKSLASH DQUOTE DQUOTE rest.
Proof.
  destruct n as [|n]; cbn [repeat app pred].
  - now rewrite replace_pair_other.
  - induction n as [|n IH]; cbn [repeat app].
    + apply replace_pair_hit.
    + rewrite replace_pair_miss by reflexivity. f_equal. exact IH.
Qed.

(** Backslash-slash becomes slash: nothing to do in a run before a quote. *)
Lemma unescape_slash_run (n : nat) (rest : str) :
  replace_pair BACKSLASH SLASH SLASH (repeat BACKSLASH n ++ DQUOTE :: rest)
  = repeat BACKSLASH n ++ DQUOTE :: replace_pair BACKSLASH SLASH SLASH rest.
Proof.
  induction n as [|n IH]; cbn [repeat app].
  - now rewrite replace_pair_other.
  - destruct n as [|n]; cbn [repeat app] in *.
    + rewrite replace_pair_miss by reflexivity. f_equal.
      now rewrite replace_pair_other.
    + rewrite replace_pair_miss by reflexivity. f_equal. exact IH.
Qed.

(** Two backslashes become one: the run before a quote is halved, rounding
    up. *)
Lemma unescape_backslash_run (n : nat) :
  forall m rest,
    m <= n ->
    replace_pair BACKSLASH BACKSLASH BACKSLASH
      (repeat BACKSLASH m ++ DQUOTE :: rest)
    = repeat BACKSLASH (Nat.div2 (S m)) ++ DQUOTE
      :: replace_pair BACKSLASH BACKSLASH BACKSLASH rest.
Proof.
  induction n as [|n IH]; intros m rest Hm.
  - assert (m = 0) by lia; subst m. cbn [repeat app Nat.div2].
    now rewrite replace_pair_other.
  - destruct m as [|[|m]].
    + cbn [repeat app Nat.div2]. now rewrite replace_pair_other.
    + cbn [repeat app Nat.div2].
      rewrite replace_pair_miss by reflexivity. f_equal.
      now rewrite replace_pair_other.
    + change (repeat BACKSLASH (S (S m)) ++ DQUOTE :: rest)
        with (BACKSLASH :: BACKSLASH :: repeat BACKSLASH m ++ DQUOTE :: rest).
      rewrite replace_pair_hit, IH by lia.
      reflexivity.
Qed.

(** One turn of the loop halves the number of backslashes before each
    quote, rounding down. *)
Lemma unescapeOnce_escaped (n : nat) (content : str) :
  plain content = true ->
  unescapeOnce (escaped n content) = escaped (Nat.div2 n) content.
Proof.
  intros Hc. rewrite unescapeOnce_pairs. unfold escaped. cbn [app].
  rewrite unescape_quote_run, (replace_pair_plain DQUOTE DQUOTE content),
    unescape_quote_run by assumption.
  rewrite unescape_slash_run, (replace_pair_plain SLASH SLASH content),
    unescape_slash_run by assumption.
  rewrite (unescape_backslash_run _ _ _ (le_n _)),
    (replace_pair_plain BACKSLASH BACKSLASH content),
    (unescape_backslash_run _ _ _ (le_n _)) by assumption.
  cbn [replace_pair]. now destruct n.
Qed.

Lemma iter_unescapeOnce_escaped (k n : nat) (content : str) :
  plain content = true ->
  Nat.iter k unescapeOnce (escaped n content)
  = escaped (Nat.iter k Nat.div2 n) content.
Proof.
  intros Hc; induction k as [|k IH]; [reflexivity|].
  change (Nat.iter (S k) unescapeOnce (escaped n content))
    with (unescapeOnce (Nat.iter k unescapeOnce (escaped n content))).
  change (Nat.iter (S k) Nat.div2 n) with (Nat.div2 (Nat.iter k Nat.div2 n)).
  rewrite IH. now apply unescapeOnce_escaped.
Qed.

Lemma escaped_length (n : nat) (content : str) :
  length (escaped n content) = 2 * n + length content + 2.
Proof.
  unfold escaped. rewrite !length_app, !repeat_length. cbn [length]. lia.
Qed.

Lemma div2_fixed (n : nat) : Nat.div2 n = n -> n = 0.
Proof.
  intros H. destruct n as [|n]; [reflexivity|].
  pose proof (Nat.lt_div2 (S n)). lia.
Qed.

Lemma div2_five (n : nat) : n <= 31 -> Nat.iter 5 Nat.div2 n = 0.
Proof.
  intros H. do 32 (destruct n as [|n]; [reflexivity|]). lia.
Qed.

(** With at most 31 backslashes before each quote the loop ends with none. *)
Lemma unescapeLoop_escaped (n : nat) (content : str) :
  n <= 31 -> plain content = true ->
  fst (unescapeLoop (escaped n content)) = DQUOTE :: content ++ [DQUOTE].
Proof.
  intros Hn Hc.
  pose proof (unescape_while_total (escaped n content)) as T.
  destruct (unescapeLoop (escaped n content)) as [r k]. cbn [fst].
  apply unescape_while_trace in T as (k' & -> & -> & Hcap & Hstop & _).
  cbn [Nat.add] in *.
  rewrite iter_unescapeOnce_escaped by assumption.
  enough (Nat.iter k' Nat.div2 n = 0) as -> by reflexivity.
  destruct (Nat.eq_dec k' 5) as [->|Hk]; [now apply div2_five|].
  destruct (Hstop ltac:(specialize (Hcap ltac:(lia)); lia))
    as [[_ He]|(j & -> & Hfix)].
  - apply (f_equal (@length char)) in He. rewrite escaped_length in He.
    cbn [length] in He. lia.
  - rewrite !iter_unescapeOnce_escaped in Hfix by assumption.
    apply (f_equal (@length char)) in Hfix.
    rewrite !escaped_length in Hfix.
    change (Nat.iter (S j) Nat.div2 n)
      with (Nat.div2 (Nat.iter j Nat.div2 n)) in *.
    assert (E : Nat.iter j Nat.div2 n = 0) by (apply div2_fixed; lia).
    now rewrite E.
Qed.

(** C5.  The unescape loop of the deep cleaner, on every input [s]: it ends
    (five units of fuel suffice) after [n <= 5] turns with [result] being [n]
    turns applied to [s]; when it ends before the cap, the last turn left the
    string unchanged (or no turn ran, the input being empty, equal to the
    initial [prev]); and it does not end earlier: every turn before the last
    changed the string.  A turn replaces backslash-quote by quote, then
    backslash-slash by slash, then two backslashes by one, each everywhere
    from the left.  With up to 31 backslashes before each of the two double
    quotes around a text free of backslash and double quote (this covers 1,
    3, 7 and 15 backslashes, the one to four levels of escaping, and the five
    backslashes of the example) the loop ends with the plainly quoted text;
    so it does for the word key, and with five backslashes it takes four
    turns. *)
Theorem unescape_loop_contract :
  (forall s, exists r n,
      unescapeLoop s = (r, n) /\
      unescape_while 5 [] s 0 = Some (r, n) /\
      n <= 5 /\
      r = Nat.iter n unescapeOnce s /\
      (n < 5 ->
       (n = 0 /\ s = []) \/
       (exists k, n = S k /\ Nat.iter k unescapeOnce s = r)) /\
      (1 <= n -> s <> []) /\
      (forall j, S j < n ->
         Nat.iter j unescapeOnce s <> Nat.iter (S j) unescapeOnce s)) /\
  (forall s,
      unescapeOnce s
      = replace_pair BACKSLASH BACKSLASH BACKSLASH
          (replace_pair BACKSLASH SLASH SLASH
             (replace_pair BACKSLASH DQUOTE DQUOTE s))) /\
  (forall k content,
      k <= 31 -> plain content = true ->
      fst (unescapeLoop (escaped k content)) = DQUOTE :: content ++ [DQUOTE]) /\
  (forall k, k <= 31 -> fst (unescapeLoop (escaped_key k)) = lit "'key'") /\
  unescapeLoop (escaped_key 5) = (lit "'key'", 4).
Proof.
  split; [|split; [|split; [|split]]].
  - intros s. destruct (unescapeLoop s) as [r n] eqn:E.
    exists r, n. split; [reflexivity|].
    pose proof (unescape_while_total s) as T; rewrite E in T.
    split; [exact T|].
    apply unescape_while_trace in T
      as (k & -> & -> & Hcap & Hstop & Hrun & Hgo).
    cbn [Nat.add] in *.
    repeat split; auto.
    + apply Hcap; lia.
    + intros Hk. destruct (Hstop Hk) as [[-> Hs]|H]; auto.
    + intros Hk Hs. apply (Hrun Hk). now symmetry.
  - apply unescapeOnce_pairs.
  - apply unescapeLoop_escaped.
  - intros k Hk. now apply (unescapeLoop_escaped k (lit "key")).
  - vm_compute; reflexivity.
Qed.

Lemma unescape_loop_contract_witness :
  fst (unescapeLoop (escaped 15 (lit "key"))) = DQUOTE :: lit "key" ++ [DQUOTE].
Proof.
  apply (proj1 (proj2 (proj2 unescape_loop_contract))).
  - lia.
  - vm_compute; reflexivity.
Defined.

(* ================================================================== *)
(** * The nested-JSON unquoter *)
(* ================================================================== *)

(** ** Prefixes and [indexOf] *)

Lemma is_prefix_spec (pat s : str) :
  is_prefix pat s = true <-> exists rest, s = pat ++ rest.
Proof.
  revert s; induction pat as [|p pat IH]; intros s; cbn [is_prefix].
  - split; [intros _; now exists s | reflexivity].
  - destruct s as [|c s].
    + split; [discriminate|intros [rest H]; discriminate].
    + rewrite andb_true_iff, IH. split.
      * intros [E [rest ->]]. apply ceq_eq in E as ->. now exists rest.
      * intros [rest [= -> ->]]. split; [apply ceq_refl|eauto].
Qed.

(** The first occurrence at or after the start of the scan. *)
Lemma indexOf_at_some (pat : str) :
  forall s i idx,
    JS.indexOf_at pat s i = Some idx ->
    exists pre rest,
      s = pre ++ pat ++ rest /\ idx = i + length pre /\
      (forall pre' rest', s = pre' ++ pat ++ rest' ->
                          length pre <= length pre').
Proof.
  induction s as [|c s IH]; intros i idx; cbn [JS.indexOf_at].
  - destruct (is_prefix pat []) eqn:E; [|discriminate].
    intros [= <-]. apply is_prefix_spec in E as [rest E].
    exists [], rest. repeat split; auto. intros; simpl; lia.
  - destruct (is_prefix pat (c :: s)) eqn:E.
    + intros [= <-]. apply is_prefix_spec in E as [rest E].
      exists [], rest. repeat split; auto. intros; simpl; lia.
    + intros H; apply IH in H as (pre & rest & -> & -> & Hmin).
      exists (c :: pre), rest. repeat split; [simpl; lia|].
      intros [|c' pre'] rest' E'.
      * exfalso. assert (is_prefix pat (c :: pre ++ pat ++ rest) = true)
          by (apply is_prefix_spec; eauto).
        congruence.
      * injection E' as -> E'. apply Hmin in E'. simpl; lia.
Qed.

Lemma indexOf_at_none (pat : str) :
  forall s i,
    JS.indexOf_at pat s i = None ->
    forall pre rest, s <> pre ++ pat ++ rest.
Proof.
  induction s as [|c s IH]; intros i; cbn [JS.indexOf_at].
  - destruct (is_prefix pat []) eqn:E; [discriminate|].
    intros _ pre rest H.
    destruct pre; [|discriminate].
    assert (is_prefix pat [] = true) by (apply is_prefix_spec; eauto).
    congruence.
  - destruct (is_prefix pat (c :: s)) eqn:E; [discriminate|].
    intros H [|c' pre] rest E'.
    + assert (is_prefix pat (c :: s) = true) by (apply is_prefix_spec; eauto).
      congruence.
    + injection E' as -> E'. exact (IH _ H _ _ E').
Qed.

Lemma indexOf_some (s pat : str) (from idx : nat) :
  from < length s ->
  JS.indexOf s pat from = Some idx ->
  from <= idx /\
  exists pre rest,
    s = pre ++ pat ++ rest /\ length pre = idx /\
    (forall pre' rest', s = pre' ++ pat ++ rest' ->
                        from <= length pre' -> idx <= length pre').
Proof.
  intros Hfrom; unfold JS.indexOf. rewrite Nat.min_l by lia.
  intros H; apply indexOf_at_some in H as (pre & rest & E & -> & Hmin).
  split; [lia|].
  exists (firstn from s ++ pre), rest.
  rewrite length_app, length_firstn, Nat.min_l by lia.
  repeat split.
  - rewrite <- app_assoc, <- E. symmetry; apply firstn_skipn.
  - intros pre' rest' E' Hle.
    assert (E2 : skipn from s = skipn from pre' ++ pat ++ rest').
    { rewrite E' at 1. rewrite skipn_app.
      replace (from - length pre') with 0 by lia. reflexivity. }
    apply Hmin in E2. rewrite length_skipn in E2. lia.
Qed.

Lemma indexOf_none (s pat : str) (from : nat) :
  JS.indexOf s pat from = None ->
  forall pre rest, s = pre ++ pat ++ rest -> length pre < from.
Proof.
  unfold JS.indexOf; intros H pre rest E.
  destruct (Nat.lt_ge_cases (length pre) from) as [|Hle]; [assumption|].
  exfalso. apply (indexOf_at_none _ _ _ H (skipn from pre) rest).
  rewrite E at 1. rewrite skipn_app.
  replace (from - length pre) with 0 by lia. reflexivity.
Qed.

(** ** The depth counter finds the matching bracket *)

Section Balance.

Variables open close : char.
Hypothesis open_close : open <> close.

(** The counter and the counts agree on one more code unit. *)
Lemma depth_count (d : nat) (c : char) (s : str) :
  1 <= d ->
  d + count open (c :: s) + count close s
  = next_depth open close d c + count open s + count close (c :: s).
Proof.
  intros Hd; unfold next_depth; cbn [count].
  destruct (ceq_spec c open) as [Ho|Ho]; destruct (ceq_spec c close) as [Hc|Hc];
    try congruence; lia.
Qed.

Lemma balanced_from_cons (d : nat) (c : char) (inner : str) :
  1 <= d ->
  balanced_from open close d (c :: inner) <->
  1 <= next_depth open close d c /\ balanced_from open close (next_depth open close d c) inner.
Proof.
  intros Hd; unfold balanced_from. split.
  - intros [Hpre Hall]. repeat split.
    + pose proof (Hpre [c] inner eq_refl) as H1.
      pose proof (depth_count d c [] Hd) as H2. cbn [count] in *. lia.
    + intros p q ->.
      pose proof (Hpre (c :: p) q eq_refl) as H1.
      pose proof (depth_count d c p Hd) as H2. lia.
    + pose proof (depth_count d c inner Hd) as H2. lia.
  - intros [Hd' [Hpre Hall]]. split.
    + intros [|c' p] q E; [simpl; lia|].
      injection E as <- E. specialize (Hpre p q E).
      pose proof (depth_count d c p Hd) as H2. lia.
    + pose proof (depth_count d c inner Hd) as H2. lia.
Qed.

Lemma balance_unfold (c : char) (rest : str) (depth pos : nat) :
  1 <= depth ->
  balance open close (c :: rest) depth pos
  = balance open close rest (next_depth open close depth c) (S pos).
Proof.
  intros Hd; cbn [balance].
  destruct (Nat.eqb_spec depth 0); [lia|reflexivity].
Qed.

Lemma balance_stop (rest : str) (pos : nat) :
  balance open close rest 0 pos = pos.
Proof. destruct rest; reflexivity. Qed.

(** The loop stops right after the closing bracket that matches. *)
Lemma balance_complete (inner tail : str) :
  forall depth pos,
    1 <= depth ->
    balanced_from open close depth inner ->
    balance open close (inner ++ close :: tail) depth pos
    = pos + length inner + 1.
Proof.
  induction inner as [|c inner IH]; intros depth pos Hd Hb.
  - destruct Hb as [_ Hb]; cbn [count] in Hb.
    assert (depth = 1) by lia; subst depth.
    cbn [app]. rewrite balance_unfold by lia.
    unfold next_depth.
    destruct (ceq_spec close open) as [E|_]; [congruence|].
    rewrite ceq_refl. cbn [pred length]. rewrite balance_stop. lia.
  - apply balanced_from_cons in Hb as [Hd' Hb]; [|assumption].
    cbn [app]. rewrite balance_unfold by assumption.
    rewrite IH by assumption. cbn [length]. lia.
Qed.

(** When the loop stops before the end of the input, it has just passed the
    closing bracket that matches. *)
Lemma balance_sound (rest : str) :
  forall depth pos,
    1 <= depth ->
    balance open close rest depth pos < pos + length rest ->
    exists inner tail,
      rest = inner ++ close :: tail /\
      balanced_from open close depth inner /\
      balance open close rest depth pos = pos + length inner + 1.
Proof.
  induction rest as [|c rest IH]; intros depth pos Hd Hlt.
  - cbn [balance length] in Hlt. lia.
  - rewrite balance_unfold in * by assumption.
    destruct (Nat.eq_dec (next_depth open close depth c) 0) as [E0|E0].
    + rewrite E0, balance_stop in *.
      unfold next_depth in E0.
      destruct (ceq_spec c open) as [|_]; [discriminate|].
      destruct (ceq_spec c close) as [->|_]; [|lia].
      assert (depth = 1) by lia; subst depth.
      exists [], rest. repeat split; cbn [length]; try lia.
      intros p q E. destruct p; [simpl; lia|discriminate].
    + destruct (IH (next_depth open close depth c) (S pos)) as (inner & tail & -> & Hb & E);
        [lia|cbn [length] in Hlt; lia|].
      exists (c :: inner), tail. split; [reflexivity|split].
      * apply balanced_from_cons; [assumption|]. split; [lia|assumption].
      * rewrite E. cbn [length]. lia.
Qed.

Lemma balance_ge (rest : str) :
  forall depth pos, pos <= balance open close rest depth pos.
Proof using Type.
  induction rest as [|c rest IH]; intros depth pos; cbn [balance].
  - apply Nat.le_refl.
  - destruct (depth =? 0); [apply Nat.le_refl|].
    apply Nat.le_trans with (S pos); [apply Nat.le_succ_diag_r|apply IH].
Qed.

End Balance.

(** ** One removal *)

Lemma firstn_exact (a b : str) (n : nat) :
  length a = n -> firstn n (a ++ b) = a.
Proof.
  intros <-. rewrite firstn_app, Nat.sub_diag, firstn_all, firstn_O.
  apply app_nil_r.
Qed.

Lemma skipn_exact (a b : str) (n : nat) :
  length a = n -> skipn n (a ++ b) = b.
Proof.
  intros <-. rewrite skipn_app, Nat.sub_diag, skipn_all. reflexivity.
Qed.

Lemma nth_error_exact (a b : str) (n : nat) :
  length a = n -> nth_error (a ++ b) n = hd_error b.
Proof.
  intros <-. rewrite nth_error_app2, Nat.sub_diag by lia.
  destruct b; reflexivity.
Qed.

(** The three slices of lines 260-262 leave out exactly the two quotes. *)
Lemma strip_quotes (open close : char) (pre inner post : str) :
  let s := pre ++ [COLON; DQUOTE; open] ++ inner ++ [close; DQUOTE] ++ post in
  let quotePos := length pre + 1 in
  let closePos := length pre + 3 + length inner in
  JS.slice s 0%Z (Z.of_nat quotePos)
  ++ JS.slice s (Z.of_nat (quotePos + 1)) (Z.of_nat (closePos + 1))
  ++ JS.slice_from s (Z.of_nat (closePos + 2))
  = pre ++ [COLON; open] ++ inner ++ [close] ++ post.
Proof.
  intros s quotePos closePos.
  assert (L : length s = length pre + 3 + length inner + 2 + length post).
  { unfold s. rewrite !length_app. cbn [length]. lia. }
  change 0%Z with (Z.of_nat 0).
  rewrite !slice_nonneg, slice_from_nonneg by (unfold quotePos, closePos; lia).
  rewrite Nat.sub_0_r. cbn [skipn].
  replace (firstn quotePos s) with (pre ++ [COLON]).
  2:{ unfold s. change (pre ++ [COLON; DQUOTE; open] ++ ?x)
        with (pre ++ [COLON] ++ [DQUOTE; open] ++ x).
      rewrite app_assoc. symmetry; apply firstn_exact.
      rewrite length_app; reflexivity. }
  replace (skipn (quotePos + 1) s)
    with ((open :: inner ++ [close]) ++ DQUOTE :: post).
  2:{ unfold s. change (pre ++ [COLON; DQUOTE; open] ++ ?x)
        with (pre ++ [COLON; DQUOTE] ++ [open] ++ x).
      rewrite app_assoc, skipn_exact
        by (rewrite length_app; unfold quotePos; cbn [length]; lia).
      cbn [app]. now rewrite <- app_assoc. }
  rewrite firstn_exact
    by (cbn [length]; rewrite length_app; unfold quotePos, closePos;
        cbn [length]; lia).
  replace (skipn (closePos + 2) s) with post.
  2:{ unfold s. rewrite !app_assoc. symmetry; apply skipn_exact.
      rewrite !length_app; unfold closePos; cbn [length]; lia. }
  rewrite <- !app_assoc. cbn [app]. now rewrite <- !app_assoc.
Qed.

Section Scan.

Variables open close : char.
Hypothesis open_close : open <> close.

(** A turn of the search loop that changes the string removes the two quotes
    around a bracketed text whose brackets match. *)
Lemma scan_sound (s : str) (fuel : nat) :
  forall from s',
    scan fuel open close s from = Some (Changed s') ->
    exists pre inner post,
      balanced_inner open close inner /\
      s = pre ++ [COLON; DQUOTE; open] ++ inner ++ [close; DQUOTE] ++ post /\
      s' = pre ++ [COLON; open] ++ inner ++ [close] ++ post.
Proof.
  induction fuel as [|fuel IH]; intros from s'; cbn [scan];
    destruct (from <? length s) eqn:Hf; try discriminate.
  apply Nat.ltb_lt in Hf.
  destruct (JS.indexOf s [COLON; DQUOTE; open] from) as [idx|] eqn:Ei;
    [|discriminate].
  apply indexOf_some in Ei as (Hle & pre & rest & E & Hidx & _); [|assumption].
  assert (Hskip : skipn (idx + 2 + 1) s = rest).
  { rewrite E, app_assoc. apply skipn_exact.
    rewrite length_app; cbn [length]; lia. }
  rewrite Hskip.
  set (pos := balance open close rest 1 (idx + 2 + 1)).
  pose proof (balance_ge open close rest 1 (idx + 2 + 1)) as Hge;
    fold pos in Hge.
  replace (pos - 1 + 1) with pos by lia.
  replace (pos - 1 + 2) with (pos + 1) by lia.
  destruct ((pos <? length s)
            && match nth_error s pos with
               | Some c => ceq c DQUOTE
               | None => false
               end) eqn:Hc; [|apply IH].
  apply andb_prop in Hc as [Hlt Hq]. apply Nat.ltb_lt in Hlt.
  intros [= <-].
  assert (Ls : length s = idx + 3 + length rest).
  { rewrite E, !length_app; cbn [length]; lia. }
  destruct (balance_sound open close open_close rest 1 (idx + 2 + 1))
    as (inner & tail & -> & Hb & Epos); [lia|fold pos; lia|].
  fold pos in Epos.
  assert (Etail : exists post, tail = DQUOTE :: post).
  { revert Hq. rewrite E.
    change ([COLON; DQUOTE; open] ++ inner ++ close :: tail)
      with ([COLON; DQUOTE; open] ++ inner ++ [close] ++ tail).
    rewrite !app_assoc, nth_error_exact
      by (rewrite !length_app; cbn [length]; lia).
    destruct tail as [|q tail]; cbn [hd_error]; [discriminate|].
    intros Hq; apply ceq_eq in Hq as ->. eauto. }
  destruct Etail as [post ->].
  exists pre, inner, post. split; [exact Hb|]. split; [exact E|].
  pose proof (strip_quotes open close pre inner post) as S.
  cbv zeta in S. rewrite <- S.
  change (inner ++ [close; DQUOTE] ++ post)
    with (inner ++ close :: DQUOTE :: post).
  rewrite <- E, Hidx.
  replace (idx + 3 + length inner) with (pos - 1) by lia.
  replace (idx + 1 + 1) with (idx + 1 + 1) by lia.
  replace (pos - 1 + 1) with pos by lia.
  replace (pos - 1 + 2) with (pos + 1) by lia.
  reflexivity.
Qed.

(** Two ways to cut [s] after the same number of code units agree. *)
Lemma app_same_length (a b a' b' : str) :
  a ++ b = a' ++ b' -> length a = length a' -> a = a' /\ b = b'.
Proof using Type.
  intros E L.
  assert (Ha : firstn (length a) (a ++ b) = a) by now apply firstn_exact.
  assert (Hb : skipn (length a) (a ++ b) = b) by now apply skipn_exact.
  rewrite E in Ha, Hb.
  rewrite firstn_exact in Ha by congruence.
  rewrite skipn_exact in Hb by congruence.
  now split.
Qed.

(** A search that changes nothing has seen every occurrence at or after its
    start: none of them could be removed. *)
Lemma scan_complete (s : str) (fuel : nat) :
  forall from,
    scan fuel open close s from = Some Unchanged ->
    forall pre inner post,
      balanced_inner open close inner ->
      s = pre ++ [COLON; DQUOTE; open] ++ inner ++ [close; DQUOTE] ++ post ->
      length pre < from.
Proof.
  induction fuel as [|fuel IH]; intros from; cbn [scan];
    destruct (from <? length s) eqn:Hf; try discriminate;
    try (apply Nat.ltb_ge in Hf; intros _ pre inner post _ E;
         rewrite E, !length_app in Hf; cbn [length] in Hf; lia).
  apply Nat.ltb_lt in Hf.
  destruct (JS.indexOf s [COLON; DQUOTE; open] from) as [idx|] eqn:Ei.
  2:{ intros _ pre inner post _ E.
      exact (indexOf_none _ _ _ Ei pre _ E). }
  apply indexOf_some in Ei as (Hle & pre0 & rest & E0 & Hidx & Hmin);
    [|assumption].
  assert (Hskip : skipn (idx + 2 + 1) s = rest).
  { rewrite E0, app_assoc. apply skipn_exact.
    rewrite length_app; cbn [length]; lia. }
  rewrite Hskip. clear Hskip.
  set (pos := balance open close rest 1 (idx + 2 + 1)).
  pose proof (balance_ge open close rest 1 (idx + 2 + 1)) as Hge;
    fold pos in Hge.
  replace (pos - 1 + 1) with pos by lia.
  destruct ((pos <? length s)
            && match nth_error s pos with
               | Some c => ceq c DQUOTE
               | None => false
               end) eqn:Hc; [discriminate|].
  intros H pre inner post Hb E.
  pose proof (IH _ H pre inner post Hb E) as Hlt.
  destruct (Nat.lt_ge_cases (length pre) from) as [|Hfrom]; [assumption|].
  exfalso.
  pose proof (Hmin pre _ E Hfrom) as Hmin'.
  assert (Hpre : length pre0 = length pre) by lia.
  rewrite E0 in E.
  apply app_same_length in E as [<- E]; [|assumption].
  apply app_inv_head in E; subst rest.
  assert (Epos : pos = idx + 3 + length inner + 1).
  { unfold pos.
    change (inner ++ [close; DQUOTE] ++ post)
      with (inner ++ close :: DQUOTE :: post).
    rewrite (balance_complete open close open_close) by (auto; exact Hb).
    lia. }
  assert (Hc' : (pos <? length s)
                && match nth_error s pos with
                   | Some c => ceq c DQUOTE
                   | None => false
                   end = true).
  { apply andb_true_intro; split.
    - apply Nat.ltb_lt. rewrite E0, !length_app; cbn [length]. lia.
    - rewrite E0.
      change ([COLON; DQUOTE; open] ++ inner ++ [close; DQUOTE] ++ post)
        with ([COLON; DQUOTE; open] ++ inner ++ [close] ++ DQUOTE :: post).
      rewrite !app_assoc, nth_error_exact
        by (rewrite !length_app; cbn [length]; lia).
      apply ceq_refl. }
  congruence.
Qed.

(** The search loop ends: its start moves forward at every turn. *)
Lemma scan_fuel (s : str) (fuel : nat) :
  forall from,
    length s - from <= fuel ->
    scan fuel open close s from <> None.
Proof.
  clear open_close.
  induction fuel as [|fuel IH]; intros from Hfuel; cbn [scan];
    destruct (from <? length s) eqn:Hf; try discriminate;
    apply Nat.ltb_lt in Hf; [lia|].
  destruct (JS.indexOf s [COLON; DQUOTE; open] from) as [idx|] eqn:Ei;
    [|discriminate].
  apply indexOf_some in Ei as (Hle & _); [|assumption].
  match goal with |- (if ?c then _ else _) <> _ => destruct c end;
    [discriminate|].
  apply IH; lia.
Qed.

End Scan.

(** ** The loop until nothing changes *)

Lemma braces_differ : LBRACE <> RBRACE.
Proof. discriminate. Qed.

Lemma brackets_differ : LBRACK <> RBRACK.
Proof. discriminate. Qed.

Lemma bracket_kind_differ (open close : char) :
  bracket_kind open close -> open <> close.
Proof. intros []; discriminate. Qed.

(** Both search loops of a pass end. *)
Lemma pass_total (s : str) : pass s <> None.
Proof.
  unfold pass.
  destruct (scan (length s) LBRACE RBRACE s 0) as [[|r]|] eqn:E;
    try discriminate.
  - apply scan_fuel; lia.
  - apply scan_fuel in E; [contradiction|lia].
Qed.

Lemma pass_changed (s s' : str) :
  pass s = Some (Changed s') -> unquote_step s s'.
Proof.
  unfold pass.
  destruct (scan (length s) LBRACE RBRACE s 0) as [[|r]|] eqn:E;
    try discriminate.
  - intros H. apply (scan_sound _ _ brackets_differ) in H
      as (pre & inner & post & Hb & -> & ->).
    now apply unquote_step_intro; [apply brackets|].
  - intros [= ->]. apply (scan_sound _ _ braces_differ) in E
      as (pre & inner & post & Hb & -> & ->).
    now apply unquote_step_intro; [apply braces|].
Qed.

Lemma pass_unchanged (s : str) :
  pass s = Some Unchanged -> ~ unquotable s.
Proof.
  unfold pass.
  destruct (scan (length s) LBRACE RBRACE s 0) as [[|r]|] eqn:E;
    try discriminate.
  intros H [s' Hstep].
  inversion Hstep as [open close pre inner post Hk Hb Es Es']; subst.
  destruct Hk.
  - pose proof (scan_complete _ _ braces_differ _ _ _ E pre inner post Hb eq_refl).
    lia.
  - pose proof (scan_complete _ _ brackets_differ _ _ _ H pre inner post Hb eq_refl).
    lia.
Qed.

Lemma unquote_step_length (s s' : str) :
  unquote_step s s' -> length s = length s' + 2.
Proof.
  intros []. rewrite !length_app. cbn [length]. lia.
Qed.

(** The outer loop ends: every turn but the last shortens the string. *)
Lemma unquote_while_fuel (fuel : nat) :
  forall s, length s < 2 * fuel -> unquote_while fuel s <> None.
Proof.
  induction fuel as [|fuel IH]; intros s Hs; [lia|].
  cbn [unquote_while].
  destruct (pass s) as [[|s']|] eqn:E.
  - discriminate.
  - apply IH. apply pass_changed, unquote_step_length in E. lia.
  - now apply pass_total in E.
Qed.

Lemma unquote_while_steps (fuel : nat) :
  forall s r,
    unquote_while fuel s = Some r ->
    unquote_steps s r /\ ~ unquotable r.
Proof.
  induction fuel as [|fuel IH]; intros s r; cbn [unquote_while];
    [discriminate|].
  destruct (pass s) as [[|s']|] eqn:E; [| |discriminate].
  - intros [= <-]. split; [apply unquote_done|now apply pass_unchanged].
  - intros H; apply IH in H as [Hsteps Hdone]. split; [|assumption].
    eapply unquote_more; [apply pass_changed, E|assumption].
Qed.

Lemma unquote_total (s : str) :
  unquote_while (S (length s)) s = Some (unquoteJsonStringValues s).
Proof.
  unfold unquoteJsonStringValues.
  destruct (unquote_while (S (length s)) s) eqn:E; [reflexivity|].
  apply unquote_while_fuel in E; [contradiction|lia].
Qed.

(** C4.  [unquoteJsonStringValues] ends on every input.  A pass that removes
    a pair of quotes makes the string exactly two code units shorter; a pass
    that changes nothing ends the loop with the string as it is; the two
    search loops of a pass always end; so the loop ends within any fuel above
    half the length of its input, and with the fuel the embedding gives it it
    returns the value of [unquoteJsonStringValues]. *)
Theorem unquote_terminates :
  (forall s s', pass s = Some (Changed s') -> length s' + 2 = length s) /\
  (forall s fuel, pass s = Some Unchanged ->
                  unquote_while (S fuel) s = Some s) /\
  (forall s, pass s <> None) /\
  (forall s fuel, length s < 2 * fuel ->
                  exists r, unquote_while fuel s = Some r) /\
  (forall s, unquote_while (S (length s)) s
             = Some (unquoteJsonStringValues s)).
Proof.
  repeat split.
  - intros s s' H. apply pass_changed, unquote_step_length in H. lia.
  - intros s fuel H. cbn [unquote_while]. now rewrite H.
  - apply pass_total.
  - intros s fuel H.
    destruct (unquote_while fuel s) as [r|] eqn:E; [eauto|].
    now apply unquote_while_fuel in E.
  - apply unquote_total.
Qed.

Lemma unquote_terminates_witness :
  exists r, unquote_while 14 (lit "{'Content':'{'key':'val'}'}") = Some r.
Proof.
  apply (proj1 (proj2 (proj2 (proj2 unquote_terminates)))).
  vm_compute. lia.
Defined.

(** C3.  On every input, [unquoteJsonStringValues] reaches its result by
    removals of one kind only: around a bracketed text that follows a colon
    and a double quote, whose closing bracket matches its opening bracket (by
    the depth count over brackets of that kind) and is followed by a double
    quote, the two double quotes are removed and nothing else; and the result
    holds no such occurrence any more.  The nested object of the contract
    becomes the text of the plain nested object, which parses to the same
    value, and two levels of nesting are resolved by one call. *)
Theorem unquote_removes_quote_pairs :
  (forall s,
      unquote_steps s (unquoteJsonStringValues s) /\
      ~ unquotable (unquoteJsonStringValues s)) /\
  unquoteJsonStringValues (lit "{'Content':'{'key':'val'}'}")
  = lit "{'Content':{'key':'val'}}" /\
  JSON.parse (unquoteJsonStringValues (lit "{'Content':'{'key':'val'}'}"))
  = Some (JSON.JObject
            [(lit "Content",
              JSON.JObject [(lit "key", JSON.JString (lit "val"))])]) /\
  JSON.parse (lit "{'Content':{'key':'val'}}")
  = Some (JSON.JObject
            [(lit "Content",
              JSON.JObject [(lit "key", JSON.JString (lit "val"))])]) /\
  unquoteJsonStringValues (lit "{'a':'{'b':'{'c':1}'}'}")
  = lit "{'a':{'b':{'c':1}}}" /\
  unquoteJsonStringValues (lit "{'a':'['x',{'b':'{'c':[1]}'}]'}")
  = lit "{'a':['x',{'b':{'c':[1]}}]}".
Proof.
  split; [|repeat split; vm_compute; reflexivity].
  intros s. apply (unquote_while_steps (S (length s))), unquote_total.
Qed.

Lemma unquote_removes_quote_pairs_witness :
  unquote_steps (lit "{'a':'{'b':'{'c':1}'}'}")
    (unquoteJsonStringValues (lit "{'a':'{'b':'{'c':1}'}'}")) /\
  ~ unquotable (unquoteJsonStringValues (lit "{'a':'{'b':'{'c':1}'}'}")).
Proof.
  exact (proj1 unquote_removes_quote_pairs (lit "{'a':'{'b':'{'c':1}'}'}")).
Defined.

(* ================================================================== *)
(** * Global replacement *)
(* ================================================================== *)

(** Where the expression matches nowhere, the text is copied. *)
Lemma replaceAll_from_no_match (m : JS.matcher) (s : str) :
  forall prev, no_match m prev s -> JS.replaceAll_from m prev s 0 = s.
Proof.
  induction s as [|c s IH]; intros prev [H0 H]; cbn [JS.replaceAll_from].
  - now rewrite H0.
  - rewrite H0. f_equal. now apply IH.
Qed.

(** The rest of a match is passed over. *)
Lemma replaceAll_from_skip (m : JS.matcher) (a b : str) :
  forall prev,
    a <> [] ->
    JS.replaceAll_from m prev (a ++ b) (length a)
    = JS.replaceAll_from m (Some (last a 0%N)) b 0.
Proof.
  induction a as [|c a IH]; intros prev Ha; [congruence|].
  cbn [app length JS.replaceAll_from].
  destruct a as [|d a]; [reflexivity|].
  rewrite IH by discriminate. reflexivity.
Qed.

(** A match that covers the whole text [matched] at the start of the input
    is replaced, and the search goes on behind it. *)
Lemma replaceAll_from_match (m : JS.matcher) (prev : option char)
    (matched rest rep : str) :
  matched <> [] ->
  m prev (matched ++ rest) = Some (rep, length matched) ->
  JS.replaceAll_from m prev (matched ++ rest) 0
  = rep ++ JS.replaceAll_from m (Some (last matched 0%N)) rest 0.
Proof.
  intros Hm H. destruct matched as [|c matched]; [congruence|].
  cbn [app JS.replaceAll_from] in *. rewrite H. cbn [length].
  destruct matched as [|d matched]; [reflexivity|].
  now rewrite (replaceAll_from_skip m (d :: matched) rest (Some c)).
Qed.

(* ================================================================== *)
(** * The symmetric rule of the slash-delimiter stripper *)
(* ================================================================== *)

Lemma slashy_not_word_like (c : char) :
  Re.is_slashy c = true -> Re.is_word_like c = false.
Proof.
  unfold Re.is_slashy. intros H; apply orb_prop in H as [H|H];
    apply ceq_eq in H; subst; reflexivity.
Qed.



(** Without a run of slashes ended by a double quote there is no match. *)
Lemma symmetric_needs_run (prev : option char) (s : str) :
  (forall c run after,
      span Re.is_slashy s = (c :: run, DQUOTE :: after) -> False) ->
  Re.symmetric prev s = None.
Proof.
  intros H; unfold Re.symmetric.
  destruct (Re.lookbehind_ok prev); [|reflexivity].
  destruct (span Re.is_slashy s) as [[|c run] [|q after]] eqn:E;
    try reflexivity.
  destruct (ceq_spec q DQUOTE) as [->|_]; [|reflexivity].
  exfalso; eauto.
Qed.

Lemma guarded_no_run (s : str) :
  forall prev,
    Re.lookbehind_ok prev = true ->
    slash_quote_guarded prev s = true ->
    forall c run after,
      span Re.is_slashy s = (c :: run, DQUOTE :: after) -> False.
Proof.
  induction s as [|d s IH]; intros prev Hprev Hg c run after;
    cbn [span]; [discriminate|].
  destruct (Re.is_slashy d) eqn:Hd; [|discriminate].
  cbn [slash_quote_guarded] in Hg. rewrite Hd in Hg.
  apply andb_prop in Hg as [Hhere Hg].
  destruct (span Re.is_slashy s) as [run' rest] eqn:E.
  intros [= <- <- ->].
  destruct run' as [|c' run'].
  - (* the run is the single [d], directly before the double quote *)
    pose proof (span_app Re.is_slashy s) as A. rewrite E in A.
    cbn [fst snd app] in A. subst s.
    cbn [JS.startsWith is_prefix andb] in Hhere.
    rewrite ceq_refl, Hprev in Hhere. discriminate.
  - apply (IH (Some d)) with (c := c') (run := run') (after := after).
    + cbn [Re.lookbehind_ok]. now rewrite slashy_not_word_like.
    + exact Hg.
    + reflexivity.
Qed.

Lemma guarded_no_match (s : str) :
  forall prev,
    slash_quote_guarded prev s = true -> no_match Re.symmetric prev s.
Proof.
  induction s as [|d s IH]; intros prev Hg.
  - split; [|exact I]. unfold Re.symmetric.
    destruct (Re.lookbehind_ok prev); reflexivity.
  - split.
    + destruct (Re.lookbehind_ok prev) eqn:Hprev.
      * apply symmetric_needs_run. now apply (guarded_no_run _ prev).
      * unfold Re.symmetric. now rewrite Hprev.
    + apply IH. cbn [slash_quote_guarded] in Hg.
      now apply andb_prop in Hg as [_ Hg].
Qed.







(** Two things the rule does outside the guarded texts.  The lookbehind looks
    at one code unit only, so in a run of two slashes after a letter the
    second slash starts a match; and the lookbehind guards only the run before
    the opening quote, while the run before the closing quote is dropped
    whole, so a URL between slash delimiters loses its own final slash with
    the delimiter. *)
Example symmetric_second_slash_of_a_run :
  JS.replaceAll Re.symmetric (lit "a//'x//'") = lit "a/'x'".
Proof. vm_compute; reflexivity. Qed.

Example symmetric_delimited_url :
  JS.replaceAll Re.symmetric (lit "{/'u/':/'https://example.com//'}")
  = lit "{'u':'https://example.com'}".
Proof. vm_compute; reflexivity. Qed.



(* ================================================================== *)
(** * The trailing-slash stripper *)
(* ================================================================== *)








(* ================================================================== *)
(** * The fuel of [JSON.parse] is enough *)
(* ================================================================== *)

Lemma skip_ws_length (s : str) : length (JSON.skip_ws s) <= length s.
Proof.
  induction s as [|c s IH]; cbn [JSON.skip_ws length]; [lia|].
  destruct (JSON.is_ws c); cbn [length]; lia.
Qed.

Lemma span_rest_length (p : char -> bool) (s : str) :
  length (snd (span p s)) <= length s.
Proof.
  rewrite <- (span_app p s) at 2. rewrite length_app. lia.
Qed.

Lemma is_prefix_length (pat s : str) :
  is_prefix pat s = true -> length pat <= length s.
Proof.
  intros H; apply is_prefix_spec in H as [rest ->].
  rewrite length_app; lia.
Qed.

Lemma lex_string_shorter (s t rest : str) :
  JSON.lex_string s = Some (t, rest) -> length rest < length s.
Proof.
  intros H. apply (lex_string_consumed _ _ _ _ (le_n _)) in H as (pre & -> & _).
  rewrite length_app; cbn [length]; lia.
Qed.

Lemma lex_int_shorter (s n rest : str) :
  JSON.lex_int s = Some (n, rest) -> length rest < length s.
Proof.
  unfold JSON.lex_int. destruct s as [|d r]; [discriminate|].
  destruct (ceq d 48%N).
  - intros [= <- <-]. cbn [length]; lia.
  - destruct (in_range 49%N 57%N d); [|discriminate].
    pose proof (span_rest_length JSON.is_digit r) as L.
    destruct (span JSON.is_digit r) as [ds r']. cbn [snd] in L.
    intros [= <- <-]. cbn [length]; lia.
Qed.

Lemma lex_frac_shorter (s n rest : str) :
  JSON.lex_frac s = Some (n, rest) -> length rest <= length s.
Proof.
  unfold JSON.lex_frac. destruct s as [|c r]; [now intros [= <- <-]|].
  destruct (ceq c JSON.DOT); [|now intros [= <- <-]].
  pose proof (span_rest_length JSON.is_digit r) as L.
  destruct (span JSON.is_digit r) as [[|d ds] r']; [discriminate|].
  cbn [snd] in L. intros [= <- <-]. cbn [length]; lia.
Qed.

Lemma lex_exp_shorter (s n rest : str) :
  JSON.lex_exp s = Some (n, rest) -> length rest <= length s.
Proof.
  unfold JSON.lex_exp. destruct s as [|c r]; [now intros [= <- <-]|].
  destruct (ceq c 101%N || ceq c 69%N); [|now intros [= <- <-]].
  destruct r as [|g r0]; [discriminate|].
  destruct (ceq g JSON.PLUS || ceq g JSON.MINUS).
  - pose proof (span_rest_length JSON.is_digit r0) as L.
    destruct (span JSON.is_digit r0) as [[|d ds] r']; [discriminate|].
    cbn [snd] in L. intros [= <- <-]. cbn [length]; lia.
  - pose proof (span_rest_length JSON.is_digit (g :: r0)) as L.
    destruct (span JSON.is_digit (g :: r0)) as [[|d ds] r']; [discriminate|].
    cbn [snd length] in L. intros [= <- <-]. cbn [length]; lia.
Qed.

Lemma lex_number_shorter (s n rest : str) :
  JSON.lex_number s = Some (n, rest) -> length rest < length s.
Proof.
  unfold JSON.lex_number.
  assert (H : forall s1 (k : str -> str),
             length s1 <= length s ->
             match JSON.lex_int s1 with
             | Some (i, s2) =>
                 match JSON.lex_frac s2 with
                 | Some (f, s3) =>
                     match JSON.lex_exp s3 with
                     | Some (e, s4) => Some (k (i ++ f ++ e), s4)
                     | None => None
                     end
                 | None => None
                 end
             | None => None
             end = Some (n, rest) -> length rest < length s).
  { intros s1 k L1.
    destruct (JSON.lex_int s1) as [[i s2]|] eqn:Ei; [|discriminate].
    destruct (JSON.lex_frac s2) as [[f s3]|] eqn:Ef; [|discriminate].
    destruct (JSON.lex_exp s3) as [[e s4]|] eqn:Ee; [|discriminate].
    intros [= <- <-].
    apply lex_int_shorter in Ei. apply lex_frac_shorter in Ef.
    apply lex_exp_shorter in Ee. lia. }
  destruct s as [|c r]; [apply (H [] (fun x => [] ++ x)); lia|].
  destruct (ceq c JSON.MINUS).
  - apply (H r (fun x => [c] ++ x)). cbn [length]; lia.
  - apply (H (c :: r) (fun x => [] ++ x)). lia.
Qed.

(** For the three parsers at once: a value that is parsed takes at least one
    code unit, and with two units of fuel for every code unit of the input
    (one more for a list of elements or members) the fuel does not run
    out. *)
Lemma parsers_fuel (fuel : nat) :
  (forall s,
      (forall v rest, JSON.parse_value fuel s = JSON.Parsed (v, rest) ->
                      length rest < length s) /\
      (2 * length s < fuel -> JSON.parse_value fuel s <> JSON.OutOfFuel)) /\
  (forall s acc,
      (forall v rest, JSON.parse_elements fuel s acc = JSON.Parsed (v, rest) ->
                      length rest < length s) /\
      (2 * length s + 1 < fuel ->
       JSON.parse_elements fuel s acc <> JSON.OutOfFuel)) /\
  (forall s acc,
      (forall v rest, JSON.parse_members fuel s acc = JSON.Parsed (v, rest) ->
                      length rest < length s) /\
      (2 * length s + 1 < fuel ->
       JSON.parse_members fuel s acc <> JSON.OutOfFuel)).
Proof.
  induction fuel as [|fuel (IHv & IHe & IHm)].
  { repeat split; try discriminate; cbn [length]; lia. }
  split; [|split].
  - (* parse_value *)
    intros [|c s']; cbn [JSON.parse_value]; [split; discriminate|].
    destruct (ceq c DQUOTE).
    { destruct (JSON.lex_string s') as [[t rest]|] eqn:E;
        [|split; discriminate].
      apply lex_string_shorter in E.
      split; [intros v r [= <- <-]; cbn [length]; lia|discriminate]. }
    destruct (ceq c LBRACK).
    { pose proof (skip_ws_length s') as L.
      destruct (JSON.skip_ws s') as [|d rest]; [split; discriminate|].
      cbn [length] in L.
      destruct (ceq d RBRACK).
      - split; [intros v r [= <- <-]; cbn [length]; lia|discriminate].
      - destruct (IHe (d :: rest) []) as [A B]. split.
        + intros v r H. apply A in H. cbn [length] in *. lia.
        + intros Hf. apply B. cbn [length] in *. lia. }
    destruct (ceq c LBRACE).
    { pose proof (skip_ws_length s') as L.
      destruct (JSON.skip_ws s') as [|d rest]; [split; discriminate|].
      cbn [length] in L.
      destruct (ceq d RBRACE).
      - split; [intros v r [= <- <-]; cbn [length]; lia|discriminate].
      - destruct (IHm (d :: rest) []) as [A B]. split.
        + intros v r H. apply A in H. cbn [length] in *. lia.
        + intros Hf. apply B. cbn [length] in *. lia. }
    destruct (is_prefix (lit "true") (c :: s')) eqn:Pt.
    { apply is_prefix_length in Pt. cbn [lit length] in Pt.
      split; [intros v r [= <- <-]|discriminate].
      destruct s' as [|c1 [|c2 [|c3 [|c4 s4]]]]; cbn [length] in *; lia. }
    destruct (is_prefix (lit "false") (c :: s')) eqn:Pf.
    { apply is_prefix_length in Pf. cbn [lit length] in Pf.
      split; [intros v r [= <- <-]|discriminate].
      destruct s' as [|c1 [|c2 [|c3 [|c4 s4]]]]; cbn [length] in *; lia. }
    destruct (is_prefix (lit "null") (c :: s')) eqn:Pn.
    { apply is_prefix_length in Pn. cbn [lit length] in Pn.
      split; [intros v r [= <- <-]|discriminate].
      destruct s' as [|c1 [|c2 [|c3 [|c4 s4]]]]; cbn [length] in *; lia. }
    destruct (JSON.lex_number (c :: s')) as [[n rest]|] eqn:E;
      [|split; discriminate].
    apply lex_number_shorter in E.
    split; [intros v r [= <- <-]; lia|discriminate].
  - (* parse_elements *)
    intros s acc; cbn [JSON.parse_elements].
    destruct (IHv s) as [Av Bv].
    destruct (JSON.parse_value fuel s) as [[v rest]| |] eqn:E.
    + specialize (Av v rest eq_refl).
      pose proof (skip_ws_length rest) as L.
      destruct (JSON.skip_ws rest) as [|d rest']; [split; discriminate|].
      cbn [length] in L.
      destruct (ceq d COMMA).
      * pose proof (skip_ws_length rest') as L'.
        destruct (IHe (JSON.skip_ws rest') (v :: acc)) as [A B]. split.
        -- intros v' r H. apply A in H. lia.
        -- intros Hf. apply B. lia.
      * destruct (ceq d RBRACK); [|split; discriminate].
        split; [intros v' r [= <- <-]; lia|discriminate].
    + split; discriminate.
    + split; [discriminate|]. intros Hf _. apply Bv; [lia|reflexivity].
  - (* parse_members *)
    intros [|q s'] acc; cbn [JSON.parse_members]; [split; discriminate|].
    destruct (ceq q DQUOTE); [|split; discriminate].
    destruct (JSON.lex_string s') as [[key rest]|] eqn:E;
      [|split; discriminate].
    apply lex_string_shorter in E.
    pose proof (skip_ws_length rest) as L.
    destruct (JSON.skip_ws rest) as [|c rest1]; [split; discriminate|].
    cbn [length] in L.
    destruct (ceq c COLON); [|split; discriminate].
    pose proof (skip_ws_length rest1) as L1.
    destruct (IHv (JSON.skip_ws rest1)) as [Av Bv].
    destruct (JSON.parse_value fuel (JSON.skip_ws rest1)) as [[v rest2]| |]
      eqn:Ev.
    + specialize (Av v rest2 eq_refl).
      pose proof (skip_ws_length rest2) as L2.
      destruct (JSON.skip_ws rest2) as [|d rest3]; [split; discriminate|].
      cbn [length] in L2.
      destruct (ceq d COMMA).
      * pose proof (skip_ws_length rest3) as L3.
        destruct (IHm (JSON.skip_ws rest3) ((key, v) :: acc)) as [A B]. split.
        -- intros v' r H. apply A in H. cbn [length]. lia.
        -- intros Hf. apply B. cbn [length] in Hf. lia.
      * destruct (ceq d RBRACE); [|split; discriminate].
        split; [intros v' r [= <- <-]; cbn [length]; lia|discriminate].
    + split; discriminate.
    + split; [discriminate|]. intros Hf _. apply Bv; [|reflexivity].
      cbn [length] in Hf. lia.
Qed.

(** [JSON.parse] never fails for lack of fuel: when it gives [None], the
    text is not JSON. *)
Lemma parse_fuel_enough (text : str) :
  JSON.parse_value (2 * length text + 1) (JSON.skip_ws text)
  <> JSON.OutOfFuel.
Proof.
  apply parsers_fuel. pose proof (skip_ws_length text). lia.
Qed.

(* ================================================================== *)
(** * More on the pipeline: the first candidate that parses wins *)
(* ================================================================== *)

Lemma try_strategies_ok (todo : list strategy) (raw : str) :
  forall best v c,
    try_strategies todo raw best = ParseOk v c ->
    JSON.parse c = Some v /\
    exists before strat after,
      todo = before ++ strat :: after /\
      strat raw = Some c /\
      (forall strat' c', In strat' before -> strat' raw = Some c' ->
                         JSON.parse c' = None).
Proof.
  induction todo as [|strat todo IH]; intros best v c; cbn [try_strategies];
    [discriminate|].
  destruct (strat raw) as [cleaned|] eqn:Es.
  - destruct (JSON.parse cleaned) as [parsed|] eqn:Ep.
    + intros [= <- <-]. split; [assumption|].
      exists [], strat, todo. repeat split; auto. intros ? ? [].
    + intros H; apply IH in H as (Hp & before & s0 & after & -> & Hs & Hb).
      split; [assumption|].
      exists (strat :: before), s0, after. repeat split; auto.
      intros strat' c' [<-|Hin] Hc'; [congruence|eauto].
  - intros H; apply IH in H as (Hp & before & s0 & after & -> & Hs & Hb).
    split; [assumption|].
    exists (strat :: before), s0, after. repeat split; auto.
    intros strat' c' [<-|Hin] Hc'; [congruence|eauto].
Qed.

Lemma try_strategies_fail (todo : list strategy) (raw : str) :
  forall best e b,
    try_strategies todo raw best = ParseFail e b ->
    e = error_message /\
    forall strat c, In strat todo -> strat raw = Some c ->
                    JSON.parse c = None.
Proof.
  induction todo as [|strat todo IH]; intros best e b; cbn [try_strategies].
  - intros [= <- <-]. split; [reflexivity|]. intros ? ? [].
  - destruct (strat raw) as [cleaned|] eqn:Es.
    + destruct (JSON.parse cleaned) as [parsed|] eqn:Ep; [discriminate|].
      intros H; apply IH in H as [-> H]. split; [reflexivity|].
      intros strat' c' [<-|Hin] Hc'; [congruence|eauto].
    + intros H; apply IH in H as [-> H]. split; [reflexivity|].
      intros strat' c' [<-|Hin] Hc'; [congruence|eauto].
Qed.

(** X1.  A success of the pipeline is sound and is the first match: the
    value returned is the parse of the cleaned text returned, that text is
    the candidate of one of the eight strategies, and no strategy before it
    gave a candidate that parses. *)
Theorem success_is_first_parsing_candidate (raw : str) (v : JSON.value)
    (c : str) :
  cleanAndParseJson raw = ParseOk v c ->
  JSON.parse c = Some v /\
  exists before strat after,
    strategies = before ++ strat :: after /\
    strat raw = Some c /\
    (forall strat' c', In strat' before -> strat' raw = Some c' ->
                       JSON.parse c' = None).
Proof. apply try_strategies_ok. Qed.

Lemma success_is_first_parsing_candidate_witness :
  JSON.parse (lit "[1,2]")
  = Some (JSON.JArray [JSON.JNumber (lit "1"); JSON.JNumber (lit "2")]) /\
  exists before strat after,
    strategies = before ++ strat :: after /\
    strat (lit "[1,2,]") = Some (lit "[1,2]") /\
    (forall strat' c', In strat' before -> strat' (lit "[1,2,]") = Some c' ->
                       JSON.parse c' = None).
Proof.
  apply (success_is_first_parsing_candidate (lit "[1,2,]")).
  vm_compute; reflexivity.
Defined.

(** X2.  The pipeline succeeds exactly when some strategy gives a candidate
    that parses; otherwise it fails with the fixed message. *)
Theorem pipeline_succeeds_iff_some_candidate_parses (raw : str) :
  ((exists v c, cleanAndParseJson raw = ParseOk v c) <->
   (exists strat c v, In strat strategies /\ strat raw = Some c /\
                      JSON.parse c = Some v)) /\
  (forall e b, cleanAndParseJson raw = ParseFail e b -> e = error_message).
Proof.
  split; [split|].
  - intros (v & c & H).
    apply try_strategies_ok in H as (Hp & before & strat & after & E & Hs & _).
    exists strat, c, v. repeat split; auto.
    rewrite E. apply in_or_app; right; now left.
  - intros (strat & c & v & Hin & Hs & Hp).
    destruct (cleanAndParseJson raw) as [v' c'|e b] eqn:E; [eauto|].
    apply try_strategies_fail in E as [_ H].
    rewrite (H strat c Hin Hs) in Hp. discriminate.
  - intros e b H. now apply try_strategies_fail in H.
Qed.

Lemma pipeline_succeeds_iff_some_candidate_parses_witness :
  exists v c, cleanAndParseJson (lit "{'a':[1,2,],}") = ParseOk v c.
Proof.
  apply (proj1 (pipeline_succeeds_iff_some_candidate_parses
                  (lit "{'a':[1,2,],}"))).
  exists strategy7, (lit "{'a':[1,2]}").
  eexists. split; [|split].
  - cbn [strategies In]. tauto.
  - vm_compute; reflexivity.
  - vm_compute; reflexivity.
Defined.

(* ================================================================== *)
(** * More on the two decoders *)
(* ================================================================== *)

(** The lexer gives back a text that was escaped once. *)
Lemma lex_string_escape_once (t rest : str) :
  existsb is_control t = false ->
  JSON.lex_string (escape_once t ++ DQUOTE :: rest) = Some (t, rest).
Proof.
  induction t as [|c t IH]; intros Hc.
  - cbn [escape_once app JSON.lex_string]. now rewrite ceq_refl.
  - cbn [existsb] in Hc. apply orb_false_elim in Hc as [Hc Ht].
    specialize (IH Ht). cbn [escape_once].
    destruct (ceq_spec c DQUOTE) as [->|Hq]; cbn [orb].
    + cbn [app JSON.lex_string].
      change (ceq BACKSLASH DQUOTE) with false.
      change (ceq BACKSLASH BACKSLASH) with true.
      change (ceq DQUOTE 117%N) with false. cbv iota.
      change (JSON.escape_char DQUOTE) with (Some DQUOTE). cbv iota.
      now rewrite IH.
    + destruct (ceq_spec c BACKSLASH) as [->|Hb].
      * cbn [app JSON.lex_string].
        change (ceq BACKSLASH DQUOTE) with false.
        change (ceq BACKSLASH BACKSLASH) with true.
        change (ceq BACKSLASH 117%N) with false. cbv iota.
        change (JSON.escape_char BACKSLASH) with (Some BACKSLASH). cbv iota.
        now rewrite IH.
      * cbn [app JSON.lex_string].
        destruct (ceq_spec c DQUOTE); [contradiction|].
        destruct (ceq_spec c BACKSLASH); [contradiction|].
        unfold is_control in Hc. rewrite Hc. now rewrite IH.
Qed.

Lemma escape_char_plain (e x : char) :
  JSON.escape_char e = Some x -> is_control e = false.
Proof.
  unfold JSON.escape_char.
  repeat match goal with
         | |- (if ceq e ?k then _ else _) = _ -> _ =>
             destruct (ceq_spec e k) as [->|_]; [reflexivity|]
         end.
  discriminate.
Qed.

Lemma hex_digit_not_control (h : char) (x : N) :
  JSON.hex_digit h = Some x -> is_control h = false.
Proof.
  unfold JSON.hex_digit, in_range, is_control.
  destruct (N.leb_spec 48 h); cbn [andb].
  - intros _. apply N.ltb_ge. lia.
  - destruct (N.leb_spec 65 h); cbn [andb]; [lia|].
    destruct (N.leb_spec 97 h); cbn [andb]; [lia|discriminate].
Qed.

(** What the lexer consumes holds no control character, and the text it
    decodes is shorter than what it consumes. *)
Lemma lex_string_consumed_plain (n : nat) :
  forall s t rest,
    length s <= n ->
    JSON.lex_string s = Some (t, rest) ->
    exists pre,
      s = pre ++ DQUOTE :: rest /\
      existsb is_control pre = false /\
      length t <= length pre.
Proof.
  induction n as [|n IH]; intros [|c s] t rest Hn; simpl in Hn;
    try (simpl; discriminate); [lia|].
  cbn [JSON.lex_string].
  destruct (ceq_spec c DQUOTE) as [->|Hq].
  { intros [= <- <-]. exists []. repeat split; auto. }
  destruct (ceq_spec c BACKSLASH) as [->|Hb].
  - destruct s as [|e s]; [discriminate|].
    destruct (ceq_spec e 117%N) as [->|Hu].
    + destruct s as [|h1 [|h2 [|h3 [|h4 s3]]]]; try discriminate.
      unfold JSON.hex4.
      destruct (JSON.hex_digit h1) eqn:H1; [|discriminate].
      destruct (JSON.hex_digit h2) eqn:H2; [|discriminate].
      destruct (JSON.hex_digit h3) eqn:H3; [|discriminate].
      destruct (JSON.hex_digit h4) eqn:H4; [|discriminate].
      intros H; apply cons_fst_some in H as (t' & H & ->).
      apply IH in H as (pre & -> & Hpre & Hlen); [|simpl in Hn; lia].
      exists (BACKSLASH :: 117%N :: h1 :: h2 :: h3 :: h4 :: pre).
      split; [reflexivity|]. split; [|cbn [length]; lia].
      cbn [existsb].
      rewrite (hex_digit_not_control _ _ H1), (hex_digit_not_control _ _ H2),
        (hex_digit_not_control _ _ H3), (hex_digit_not_control _ _ H4).
      exact Hpre.
    + destruct (JSON.escape_char e) as [x|] eqn:Ee; [|discriminate].
      intros H; apply cons_fst_some in H as (t' & H & ->).
      apply IH in H as (pre & -> & Hpre & Hlen); [|simpl in Hn; lia].
      exists (BACKSLASH :: e :: pre).
      split; [reflexivity|]. split; [|cbn [length]; lia].
      cbn [existsb]. rewrite (escape_char_plain _ _ Ee). exact Hpre.
  - destruct (c <? 32)%N eqn:Hc; [discriminate|].
    intros H; apply cons_fst_some in H as (t' & H & ->).
    apply IH in H as (pre & -> & Hpre & Hlen); [|lia].
    exists (c :: pre).
    split; [reflexivity|]. split; [|cbn [length]; lia].
    cbn [existsb]. unfold is_control at 1. now rewrite Hc.
Qed.

(** A text between the added quotes decodes only if the lexer reads it to
    its end. *)
Lemma wrapAndUnescape_iff (s t : str) :
  wrapAndUnescape s = Some t <->
  JSON.lex_string (s ++ [DQUOTE]) = Some (t, []).
Proof.
  unfold wrapAndUnescape.
  change ([DQUOTE] ++ s ++ [DQUOTE]) with (DQUOTE :: s ++ [DQUOTE]).
  rewrite parse_quoted.
  destruct (JSON.lex_string (s ++ [DQUOTE])) as [[t0 rest]|] eqn:E.
  - pose proof E as E'.
    apply (lex_string_consumed _ _ _ _ (le_n _)) in E' as (pre & E' & _).
    destruct rest as [|r rest].
    + cbn [JSON.skip_ws]. split; intros [= ->]; reflexivity.
    + split; [|discriminate].
      destruct (@exists_last _ (r :: rest)) as (m & z & Em); [discriminate|].
      rewrite Em in E'.
      change (pre ++ DQUOTE :: m ++ [z]) with (pre ++ (DQUOTE :: m) ++ [z])
        in E'.
      rewrite app_assoc in E'. apply app_inj_tail in E' as [_ <-].
      rewrite Em.
      destruct (JSON.skip_ws (m ++ [DQUOTE])) eqn:W; [|discriminate].
      now apply skip_ws_ends_with_quote in W.
  - split; discriminate.
Qed.

(** X3.  [wrapAndUnescape] undoes one level of escaping: a text without
    control characters in which every double quote and every backslash got a
    backslash before it is given back as it was. *)
Theorem wrapAndUnescape_undoes_escape_once (t : str) :
  existsb is_control t = false ->
  wrapAndUnescape (escape_once t) = Some t.
Proof.
  intros H. apply wrapAndUnescape_iff. now apply lex_string_escape_once.
Qed.

Lemma wrapAndUnescape_undoes_escape_once_witness :
  wrapAndUnescape (escape_once (lit "{'k\':'a b'}")) = Some (lit "{'k\':'a b'}").
Proof.
  apply wrapAndUnescape_undoes_escape_once. vm_compute; reflexivity.
Defined.

(** What a text that decodes looks like. *)
Lemma wrapAndUnescape_some (s t : str) :
  wrapAndUnescape s = Some t ->
  existsb is_control s = false /\
  has_unescaped_quote s = false /\
  length t <= length s.
Proof.
  intros Ht. pose proof Ht as Hl. apply wrapAndUnescape_iff in Hl.
  apply (lex_string_consumed_plain _ _ _ _ (le_n _)) in Hl
    as (pre & E & Hc & Hlen).
  apply app_inj_tail in E as [-> _].
  repeat split; auto.
  destruct (has_unescaped_quote pre) eqn:Hq; [|reflexivity].
  apply wrapAndUnescape_throws in Hq. congruence.
Qed.

(** X4.  [wrapAndUnescape] throws on every text that holds a control
    character, a raw line feed or tab for one: the strategy built on it never
    applies to input of several lines.  When it does return, the text held no
    control character and no unescaped double quote, and the result is not
    longer than the text. *)
Theorem wrapAndUnescape_needs_plain_text (s : str) :
  (existsb is_control s = true -> wrapAndUnescape s = None) /\
  (forall t, wrapAndUnescape s = Some t ->
             existsb is_control s = false /\
             has_unescaped_quote s = false /\
             length t <= length s).
Proof.
  split; [|apply wrapAndUnescape_some].
  intros Hc. destruct (wrapAndUnescape s) as [t|] eqn:E; [|reflexivity].
  apply wrapAndUnescape_some in E as [E _]. congruence.
Qed.

Lemma wrapAndUnescape_needs_plain_text_witness :
  wrapAndUnescape [LBRACE; LF; RBRACE] = None.
Proof.
  apply (proj1 (wrapAndUnescape_needs_plain_text [LBRACE; LF; RBRACE])).
  vm_compute; reflexivity.
Defined.

Lemma endsWith_last (s : str) (c : char) :
  JS.endsWith (s ++ [c]) [c] = true.
Proof.
  unfold JS.endsWith. rewrite rev_app_distr. cbn [rev app is_prefix].
  now rewrite ceq_refl.
Qed.

(** X5.  [tryUnwrapString] undoes a wrapping: a text without control
    characters that was escaped once and put between double quotes is given
    back as it was. *)
Theorem tryUnwrapString_undoes_wrapping (t : str) :
  existsb is_control t = false ->
  tryUnwrapString ([DQUOTE] ++ escape_once t ++ [DQUOTE]) = t.
Proof.
  intros H. unfold tryUnwrapString.
  change ([DQUOTE] ++ escape_once t ++ [DQUOTE])
    with (DQUOTE :: escape_once t ++ [DQUOTE]).
  change (DQUOTE :: escape_once t ++ [DQUOTE])
    with ((DQUOTE :: escape_once t) ++ [DQUOTE]) at 2.
  rewrite endsWith_last.
  cbn [JS.startsWith is_prefix]. rewrite ceq_refl. cbn [andb].
  rewrite parse_quoted, lex_string_escape_once by assumption.
  reflexivity.
Qed.

Lemma tryUnwrapString_undoes_wrapping_witness :
  tryUnwrapString ([DQUOTE] ++ escape_once (lit "{'a':'b\c'}") ++ [DQUOTE])
  = lit "{'a':'b\c'}".
Proof.
  apply tryUnwrapString_undoes_wrapping. vm_compute; reflexivity.
Defined.

Lemma tl_removelast_length (s : str) :
  s <> [] -> length (tl (removelast s)) < length s.
Proof.
  intros H. destruct (@exists_last _ s H) as (m & z & ->).
  rewrite removelast_last, length_app. cbn [length].
  destruct m; cbn [tl length]; lia.
Qed.

Lemma tryUnwrapString_lt (s : str) :
  quote_delimited s -> length (tryUnwrapString s) < length s.
Proof.
  intros [Hs He]. unfold tryUnwrapString. rewrite Hs, He. cbn [andb].
  apply startsWith_quote in Hs as [s' ->].
  rewrite parse_quoted.
  destruct (JSON.lex_string s') as [[t rest]|] eqn:E.
  - apply (lex_string_consumed_plain _ _ _ _ (le_n _)) in E
      as (pre & -> & _ & Hlen).
    destruct (JSON.skip_ws rest).
    + cbn [length]. rewrite length_app. cbn [length]. lia.
    + rewrite slice_1_m1. apply tl_removelast_length. discriminate.
  - rewrite slice_1_m1. apply tl_removelast_length. discriminate.
Qed.

Lemma tryUnwrapString_le (s : str) :
  length (tryUnwrapString s) <= length s.
Proof.
  pose proof (tryUnwrapString_lt s) as H.
  unfold tryUnwrapString in *.
  destruct (JS.startsWith s [DQUOTE]) eqn:Hs;
    [destruct (JS.endsWith s [DQUOTE]) eqn:He|]; cbn [andb] in *;
    try apply Nat.le_refl.
  apply Nat.lt_le_incl, H. now split.
Qed.

(** X6.  [tryUnwrapString] never makes a text longer, and it makes every
    text that starts and ends with a double quote shorter; so the two calls
    of the deep cleaner and the one of strategy 8 each take a layer off or
    leave the text alone. *)
Theorem tryUnwrapString_shortens (s : str) :
  length (tryUnwrapString s) <= length s /\
  (quote_delimited s -> length (tryUnwrapString s) < length s).
Proof.
  split; [apply tryUnwrapString_le|apply tryUnwrapString_lt].
Qed.

Lemma tryUnwrapString_shortens_witness :
  length (tryUnwrapString (lit "'a'b'")) < length (lit "'a'b'").
Proof.
  apply (proj2 (tryUnwrapString_shortens (lit "'a'b'"))).
  split; vm_compute; reflexivity.
Defined.

(* ================================================================== *)
(** * More on the nested-JSON unquoter *)
(* ================================================================== *)

Lemma unquote_fixed (s : str) :
  ~ unquotable s -> unquoteJsonStringValues s = s.
Proof.
  intros H. pose proof (unquote_total s) as T. cbn [unquote_while] in T.
  destruct (pass s) as [[|s']|] eqn:E.
  - congruence.
  - exfalso. apply H. exists s'. now apply pass_changed.
  - now apply pass_total in E.
Qed.

Lemma unquote_result_done (s : str) :
  ~ unquotable (unquoteJsonStringValues s).
Proof.
  apply (unquote_while_steps (S (length s)) s), unquote_total.
Qed.

(** X7.  [unquoteJsonStringValues] is idempotent, and the texts it leaves
    unchanged are exactly those without an occurrence to remove. *)
Theorem unquote_idempotent (s : str) :
  unquoteJsonStringValues (unquoteJsonStringValues s)
  = unquoteJsonStringValues s /\
  (unquoteJsonStringValues s = s <-> ~ unquotable s).
Proof.
  split.
  - apply unquote_fixed, unquote_result_done.
  - split.
    + intros E. rewrite <- E. apply unquote_result_done.
    + apply unquote_fixed.
Qed.

Lemma unquote_step_keeps_rest (s s' : str) :
  unquote_step s s' ->
  filter Re.not_quote s' = filter Re.not_quote s.
Proof.
  intros [open close pre inner post Hk _].
  assert (Ho : Re.not_quote open = true) by (destruct Hk; reflexivity).
  assert (Hc : Re.not_quote close = true) by (destruct Hk; reflexivity).
  rewrite !filter_app. cbn [filter].
  change (Re.not_quote DQUOTE) with false.
  change (Re.not_quote COLON) with true.
  rewrite Ho, Hc. cbv iota. reflexivity.
Qed.

(** X8.  [unquoteJsonStringValues] deletes double quotes and nothing else:
    input and result are the same text once their double quotes are left out,
    and the result is shorter by an even number of code units. *)
Theorem unquote_only_deletes_quotes (s : str) :
  filter Re.not_quote (unquoteJsonStringValues s) = filter Re.not_quote s /\
  exists k, length s = length (unquoteJsonStringValues s) + 2 * k.
Proof.
  pose proof (unquote_while_steps (S (length s)) s _ (unquote_total s))
    as [Hsteps _].
  induction Hsteps as [s0|s0 s1 s2 Hstep _ [IH1 [k IH2]]].
  - split; [reflexivity|]. exists 0. lia.
  - split.
    + rewrite IH1. now apply unquote_step_keeps_rest.
    + exists (S k). apply unquote_step_length in Hstep. lia.
Qed.

(* ================================================================== *)
(** * More on the unescape loop *)
(* ================================================================== *)

(** Replacing backslash-[b] by [b] takes backslashes away and nothing
    else. *)
Lemma replace_pair_keeps_rest (b : char) (n : nat) :
  forall s,
    length s <= n ->
    filter not_backslash (replace_pair BACKSLASH b b s)
    = filter not_backslash s /\
    length (replace_pair BACKSLASH b b s) <= length s.
Proof.
  induction n as [|n IH]; intros [|x [|y s]] Hn; cbn [length] in Hn;
    try (split; [reflexivity|apply Nat.le_refl]); [lia|].
  destruct (ceq_spec x BACKSLASH) as [->|Hx].
  - destruct (ceq_spec y b) as [->|Hy].
    + rewrite replace_pair_hit.
      destruct (IH s ltac:(lia)) as [IH1 IH2].
      split; [|cbn [length]; lia].
      cbn [filter]. change (not_backslash BACKSLASH) with false. cbv iota.
      now rewrite IH1.
    + rewrite replace_pair_miss
        by (destruct (ceq_spec y b); [contradiction|reflexivity]).
      destruct (IH (y :: s) ltac:(cbn [length]; lia)) as [IH1 IH2].
      split; [|cbn [length] in *; lia].
      change (filter not_backslash
                (BACKSLASH :: replace_pair BACKSLASH b b (y :: s)))
        with (filter not_backslash (replace_pair BACKSLASH b b (y :: s))).
      rewrite IH1. reflexivity.
  - rewrite replace_pair_other
      by (destruct (ceq_spec x BACKSLASH); [contradiction|reflexivity]).
    destruct (IH (y :: s) ltac:(cbn [length]; lia)) as [IH1 IH2].
    split; [|cbn [length] in *; lia].
    change (filter not_backslash (x :: replace_pair BACKSLASH b b (y :: s)))
      with (if not_backslash x
            then x :: filter not_backslash
                        (replace_pair BACKSLASH b b (y :: s))
            else filter not_backslash (replace_pair BACKSLASH b b (y :: s))).
    rewrite IH1. reflexivity.
Qed.

Lemma unescapeOnce_keeps_rest (s : str) :
  filter not_backslash (unescapeOnce s) = filter not_backslash s /\
  length (unescapeOnce s) <= length s.
Proof.
  rewrite unescapeOnce_pairs.
  destruct (replace_pair_keeps_rest DQUOTE _ s (le_n _)) as [A1 A2].
  destruct (replace_pair_keeps_rest SLASH _
              (replace_pair BACKSLASH DQUOTE DQUOTE s) (le_n _)) as [B1 B2].
  destruct (replace_pair_keeps_rest BACKSLASH _
              (replace_pair BACKSLASH SLASH SLASH
                 (replace_pair BACKSLASH DQUOTE DQUOTE s)) (le_n _))
    as [C1 C2].
  split; [congruence|lia].
Qed.

Lemma iter_unescapeOnce_keeps_rest (k : nat) (s : str) :
  filter not_backslash (Nat.iter k unescapeOnce s) = filter not_backslash s /\
  length (Nat.iter k unescapeOnce s) <= length s.
Proof.
  induction k as [|k [IH1 IH2]]; [split; [reflexivity|apply Nat.le_refl]|].
  change (Nat.iter (S k) unescapeOnce s)
    with (unescapeOnce (Nat.iter k unescapeOnce s)).
  destruct (unescapeOnce_keeps_rest (Nat.iter k unescapeOnce s)) as [A B].
  split; [congruence|lia].
Qed.

Lemma unescapeLoop_iter (s : str) :
  exists k, k <= 5 /\ fst (unescapeLoop s) = Nat.iter k unescapeOnce s.
Proof.
  pose proof (unescape_while_total s) as T.
  destruct (unescapeLoop s) as [r n].
  apply unescape_while_trace in T as (k & -> & -> & Hcap & _).
  exists k. split; [apply Hcap; lia|reflexivity].
Qed.

(** X9.  The unescape loop takes backslashes away and nothing else: input
    and result are the same text once their backslashes are left out, and the
    result is never longer than the input. *)
Theorem unescapeLoop_only_deletes_backslashes (s : str) :
  filter not_backslash (fst (unescapeLoop s)) = filter not_backslash s /\
  length (fst (unescapeLoop s)) <= length s.
Proof.
  destruct (unescapeLoop_iter s) as (k & _ & ->).
  apply iter_unescapeOnce_keeps_rest.
Qed.

Lemma iter_div2_zero (k : nat) : Nat.iter k Nat.div2 0 = 0.
Proof.
  induction k as [|k IH]; [reflexivity|].
  change (Nat.iter (S k) Nat.div2 0) with (Nat.div2 (Nat.iter k Nat.div2 0)).
  now rewrite IH.
Qed.

Lemma iter_div2_pow (k n : nat) : Nat.iter k Nat.div2 n = n / 2 ^ k.
Proof.
  induction k as [|k IH]; [cbn [Nat.iter nat_rect Nat.pow]; now rewrite Nat.div_1_r|].
  change (Nat.iter (S k) Nat.div2 n) with (Nat.div2 (Nat.iter k Nat.div2 n)).
  rewrite IH, Nat.div2_div, Nat.Div0.div_div.
  f_equal. cbn [Nat.pow]. lia.
Qed.

(** X10.  What the cap of five turns leaves: around a text free of backslash
    and double quote, [n] backslashes before each double quote come out as
    [n / 32] backslashes.  Up to 31 are resolved; from 32 on some
    remain. *)
Theorem unescapeLoop_leaves_a_32nd (n : nat) (content : str) :
  plain content = true ->
  fst (unescapeLoop (escaped n content)) = escaped (n / 32) content.
Proof.
  intros Hc.
  pose proof (unescape_while_total (escaped n content)) as T.
  destruct (unescapeLoop (escaped n content)) as [r k]. cbn [fst].
  apply unescape_while_trace in T as (k' & -> & -> & Hcap & Hstop & _).
  cbn [Nat.add] in *.
  rewrite iter_unescapeOnce_escaped by assumption.
  change 32 with (2 ^ 5). rewrite <- iter_div2_pow.
  destruct (Nat.eq_dec k' 5) as [->|Hk]; [reflexivity|].
  assert (Hlt : k' < 5) by (specialize (Hcap ltac:(lia)); lia).
  assert (E : Nat.iter k' Nat.div2 n = 0).
  { destruct (Hstop Hlt) as [[_ He]|(j & -> & Hfix)].
    - apply (f_equal (@length char)) in He. rewrite escaped_length in He.
      cbn [length] in He. lia.
    - rewrite !iter_unescapeOnce_escaped in Hfix by assumption.
      apply (f_equal (@length char)) in Hfix.
      rewrite !escaped_length in Hfix.
      change (Nat.iter (S j) Nat.div2 n)
        with (Nat.div2 (Nat.iter j Nat.div2 n)) in *.
      assert (E : Nat.iter j Nat.div2 n = 0) by (apply div2_fixed; lia).
      now rewrite E. }
  replace 5 with ((5 - k') + k') by lia.
  rewrite Nat.iter_add, E, iter_div2_zero. reflexivity.
Qed.

Lemma unescapeLoop_leaves_a_32nd_witness :
  fst (unescapeLoop (escaped 63 (lit "key"))) = escaped 1 (lit "key").
Proof.
  apply (unescapeLoop_leaves_a_32nd 63 (lit "key")). vm_compute; reflexivity.
Defined.

(* ================================================================== *)
(** * More on the slash-delimiter stripper: the leading rule *)
(* ================================================================== *)

Lemma leading_some (X : char -> bool) (prev : option char) (s rep : str)
    (n : nat) :
  Re.leading X prev s = Some (rep, n) ->
  rep = [] /\ Re.lookbehind_ok prev = true /\
  exists run rest,
    s = run ++ DQUOTE :: rest /\ run <> [] /\
    forallb X run = true /\ n = length run.
Proof.
  unfold Re.leading.
  destruct (Re.lookbehind_ok prev); [|discriminate].
  pose proof (span_app X s) as A. pose proof (span_all X s) as B.
  destruct (span X s) as [[|c run] [|q rest]]; try discriminate.
  cbn [fst snd] in A, B.
  destruct (ceq_spec q DQUOTE) as [->|]; [|discriminate].
  intros [= <- <-]. repeat split.
  exists (c :: run), rest. repeat split; auto. discriminate.
Qed.

Lemma leading_at_run (prev : option char) (run rest : str) :
  run <> [] -> forallb Re.is_slashy run = true ->
  Re.leading Re.is_slashy prev (run ++ DQUOTE :: rest)
  = if Re.lookbehind_ok prev then Some ([], length run) else None.
Proof.
  intros Hne Hrun. unfold Re.leading.
  destruct (Re.lookbehind_ok prev); [|reflexivity].
  rewrite span_run by (assumption || reflexivity).
  destruct run; [congruence|]. now rewrite ceq_refl.
Qed.

Lemma leading_at_quote (prev : option char) (rest : str) :
  Re.leading Re.is_slashy prev (DQUOTE :: rest) = None.
Proof.
  unfold Re.leading. destruct (Re.lookbehind_ok prev); reflexivity.
Qed.

Lemma leading_at_end (prev : option char) :
  Re.leading Re.is_slashy prev [] = None.
Proof.
  unfold Re.leading. destruct (Re.lookbehind_ok prev); reflexivity.
Qed.

(** After a run that is dropped the output goes on with the double quote. *)
Lemma leading_drop_run (prev : option char) (run rest : str) :
  run <> [] -> forallb Re.is_slashy run = true ->
  Re.lookbehind_ok prev = true ->
  JS.replaceAll_from (Re.leading Re.is_slashy) prev (run ++ DQUOTE :: rest) 0
  = DQUOTE
    :: JS.replaceAll_from (Re.leading Re.is_slashy) (Some DQUOTE) rest 0.
Proof.
  intros Hne Hrun Hprev.
  rewrite (replaceAll_from_match _ prev run (DQUOTE :: rest) []);
    [|assumption|rewrite leading_at_run, Hprev by assumption; reflexivity].
  cbn [app JS.replaceAll_from]. now rewrite leading_at_quote.
Qed.

(** Where the output of the leading rule starts with a double quote, the
    input starts with a run of slashes and backslashes, empty perhaps, and a
    double quote. *)
Lemma leading_out_head (s : str) (prev : option char) :
  JS.startsWith (JS.replaceAll_from (Re.leading Re.is_slashy) prev s 0)
    [DQUOTE] = true ->
  exists run rest, s = run ++ DQUOTE :: rest /\
                   forallb Re.is_slashy run = true.
Proof.
  destruct s as [|c s]; cbn [JS.replaceAll_from].
  - rewrite leading_at_end. discriminate.
  - destruct (Re.leading Re.is_slashy prev (c :: s)) as [[rep [|k]]|] eqn:E.
    + apply leading_some in E as (_ & _ & run & rest & _ & Hne & _ & Hn).
      destruct run; [congruence|discriminate].
    + apply leading_some in E as (_ & _ & run & rest & -> & _ & Hrun & _).
      intros _. eauto.
    + cbn [JS.startsWith is_prefix]. rewrite andb_true_r.
      intros H. apply ceq_eq in H. subst c. exists [], s. now split.
Qed.

Lemma leading_guarded (n : nat) :
  forall s prev,
    length s <= n ->
    slash_quote_guarded prev
      (JS.replaceAll_from (Re.leading Re.is_slashy) prev s 0) = true.
Proof.
  induction n as [|n IH]; intros [|c s] prev Hn; cbn [length] in Hn;
    try lia;
    try (cbn [JS.replaceAll_from]; rewrite leading_at_end; reflexivity).
  destruct (Re.leading Re.is_slashy prev (c :: s)) as [[rep k]|] eqn:E.
  - apply leading_some in E as (_ & Hprev & run & rest & E & Hne & Hrun & _).
    rewrite E, leading_drop_run by assumption.
    cbn [slash_quote_guarded].
    change (Re.is_slashy DQUOTE) with false. cbn [andb].
    apply IH.
    apply (f_equal (@length char)) in E. rewrite length_app in E.
    cbn [length] in E. lia.
  - cbn [JS.replaceAll_from]. rewrite E. cbn [slash_quote_guarded].
    rewrite IH by lia. rewrite andb_true_r.
    destruct (Re.is_slashy c) eqn:Hc; cbn [andb]; [|reflexivity].
    destruct (JS.startsWith _ [DQUOTE]) eqn:Hq; [|reflexivity].
    apply leading_out_head in Hq as (run & rest & -> & Hrun).
    change (c :: run ++ DQUOTE :: rest)
      with ((c :: run) ++ DQUOTE :: rest) in E.
    rewrite leading_at_run in E
      by (discriminate || (cbn [forallb]; now rewrite Hc)).
    destruct (Re.lookbehind_ok prev); [discriminate|reflexivity].
Qed.

(** X11.  After the leading rule every slash or backslash that still stands
    directly before a double quote stands directly behind a letter, digit,
    dot, underscore or hyphen; so the symmetric rule, applied after it, would
    find nothing: this is why the source applies the symmetric rule
    first. *)
Theorem leading_rule_leaves_only_guarded_slashes (s : str) :
  slash_quote_guarded None (JS.replaceAll (Re.leading Re.is_slashy) s) = true /\
  JS.replaceAll Re.symmetric (JS.replaceAll (Re.leading Re.is_slashy) s)
  = JS.replaceAll (Re.leading Re.is_slashy) s.
Proof.
  assert (G : slash_quote_guarded None
                (JS.replaceAll (Re.leading Re.is_slashy) s) = true)
    by apply (leading_guarded (length s) s None (le_n _)).
  split; [exact G|].
  apply replaceAll_from_no_match, guarded_no_match, G.
Qed.

(** ** The three replacements of a fixed text, lines 313-315 *)

Lemma replaceFirst_from_absent (pat rep : str) (t : str) :
  forall prev,
    (forall pre rest, t <> pre ++ pat ++ rest) ->
    JS.replaceFirst_from (JS.literally pat rep) prev t = t.
Proof.
  induction t as [|c t IH]; intros prev H; cbn [JS.replaceFirst_from];
    unfold JS.literally at 1.
  - destruct (is_prefix pat []) eqn:E; [|reflexivity].
    apply is_prefix_spec in E as [rest E]. now destruct (H [] rest).
  - destruct (is_prefix pat (c :: t)) eqn:E.
    + apply is_prefix_spec in E as [rest E]. now destruct (H [] rest).
    + f_equal. apply IH. intros pre rest E'.
      apply (H (c :: pre) rest). cbn [app]. now rewrite E'.
Qed.

Lemma replaceFirst_from_first (pat rep : str) (pre rest : str) :
  forall prev,
    (forall pre' rest', pre ++ pat ++ rest = pre' ++ pat ++ rest' ->
                        length pre <= length pre') ->
    JS.replaceFirst_from (JS.literally pat rep) prev (pre ++ pat ++ rest)
    = pre ++ rep ++ rest.
Proof.
  induction pre as [|c pre IH]; intros prev Hmin.
  - cbn [app]. destruct (pat ++ rest) as [|x t] eqn:Et.
    + cbn [JS.replaceFirst_from]. unfold JS.literally.
      assert (E : is_prefix pat [] = true)
        by (apply is_prefix_spec; exists rest; now rewrite Et).
      rewrite E. cbn [skipn].
      destruct pat; [|discriminate]. cbn [app] in Et. subst rest.
      now destruct rep.
    + rewrite <- Et. clear Et.
      assert (E : is_prefix pat (pat ++ rest) = true)
        by (apply is_prefix_spec; eauto).
      destruct (pat ++ rest) as [|y u] eqn:Eu.
      * cbn [JS.replaceFirst_from]. unfold JS.literally. rewrite E.
        destruct pat; [|discriminate]. cbn [app] in Eu. subst rest.
        cbn [length skipn]. reflexivity.
      * cbn [JS.replaceFirst_from]. unfold JS.literally at 1. rewrite E.
        rewrite <- Eu. now rewrite skipn_exact.
  - cbn [app JS.replaceFirst_from]. unfold JS.literally at 1.
    destruct (is_prefix pat (c :: pre ++ pat ++ rest)) eqn:E.
    + apply is_prefix_spec in E as [rest' E].
      specialize (Hmin [] rest' E). cbn [length] in Hmin. lia.
    + f_equal. apply IH. intros pre' rest' E'.
      specialize (Hmin (c :: pre') rest'). cbn [app length] in Hmin.
      rewrite E' in Hmin. specialize (Hmin eq_refl). lia.
Qed.

Lemma guarded_no_double_slash (t : str) :
  forall prev,
    slash_quote_guarded prev t = true ->
    forall pre rest, t <> pre ++ [SLASH; SLASH; DQUOTE] ++ rest.
Proof.
  intros prev Hg pre rest ->. revert prev Hg.
  induction pre as [|c pre IH]; intros prev Hg.
  - cbn [app slash_quote_guarded JS.startsWith is_prefix] in Hg.
    change (Re.is_slashy SLASH) with true in Hg.
    change (ceq DQUOTE SLASH) with false in Hg.
    rewrite ceq_refl in Hg. cbn [andb Re.lookbehind_ok] in Hg.
    change (Re.is_word_like SLASH) with false in Hg.
    cbn [negb andb] in Hg. discriminate.
  - cbn [app slash_quote_guarded] in Hg.
    apply andb_prop in Hg as [_ Hg]. exact (IH _ Hg).
Qed.

Lemma guarded_leading_no_match (s : str) :
  forall prev,
    slash_quote_guarded prev s = true ->
    no_match (Re.leading Re.is_slashy) prev s.
Proof.
  induction s as [|d s IH]; intros prev Hg.
  - split; [apply leading_at_end|exact I].
  - split.
    + destruct (Re.leading Re.is_slashy prev (d :: s)) as [[rep n]|] eqn:E;
        [|reflexivity].
      apply leading_some in E as (_ & Hprev & run & rest & E & Hne & Hrun & _).
      exfalso. destruct run as [|c run]; [congruence|].
      apply (guarded_no_run (d :: s) prev Hprev Hg c run rest).
      rewrite E. apply span_run; [assumption|reflexivity].
    + apply IH. cbn [slash_quote_guarded] in Hg.
      now apply andb_prop in Hg as [_ Hg].
Qed.

Lemma literal_replacements_after_leading (s : str) :
  let out := JS.replaceAll (Re.leading Re.is_slashy) s in
  JS.replaceFirst (JS.literally (lit "///'") [DQUOTE]) out = out /\
  JS.replaceFirst (JS.literally (lit "//'") [DQUOTE]) out = out /\
  leadingSlashPass s = JS.replaceFirst (JS.literally (lit "/'") [DQUOTE]) out.
Proof.
  intros out.
  assert (G : slash_quote_guarded None out = true)
    by apply (leading_guarded (length s) s None (le_n _)).
  assert (H2 : JS.replaceFirst (JS.literally (lit "//'") [DQUOTE]) out = out).
  { apply replaceFirst_from_absent. exact (guarded_no_double_slash _ _ G). }
  assert (H3 : JS.replaceFirst (JS.literally (lit "///'") [DQUOTE]) out = out).
  { apply replaceFirst_from_absent. intros pre rest E.
    apply (guarded_no_double_slash _ _ G (pre ++ [SLASH]) rest).
    rewrite E, <- app_assoc. reflexivity. }
  split; [exact H3|]. split; [exact H2|].
  unfold leadingSlashPass. fold out. now rewrite H3, H2.
Qed.

(** X12.  After the leading rule the replacements of three slashes and a
    double quote and of two slashes and a double quote never find their
    text: of lines 313-315 only the last replacement, of one slash and a
    double quote, can change anything. *)
Theorem two_literal_replacements_never_apply (s : str) :
  JS.replaceFirst (JS.literally (lit "///'") [DQUOTE])
    (JS.replaceAll (Re.leading Re.is_slashy) s)
  = JS.replaceAll (Re.leading Re.is_slashy) s /\
  JS.replaceFirst (JS.literally (lit "//'") [DQUOTE])
    (JS.replaceAll (Re.leading Re.is_slashy) s)
  = JS.replaceAll (Re.leading Re.is_slashy) s /\
  leadingSlashPass s
  = JS.replaceFirst (JS.literally (lit "/'") [DQUOTE])
      (JS.replaceAll (Re.leading Re.is_slashy) s).
Proof. exact (literal_replacements_after_leading s). Qed.

(** X13.  The slash that the lookbehind protects is not safe from the deep
    cleaner: in a text whose slashes before double quotes all follow a
    letter, digit, dot, underscore or hyphen, so that both rules with the
    lookbehind leave it alone, lines 312-315 still replace the first slash
    that stands before a double quote, the final slash of a quoted URL for
    one, by nothing. *)
Theorem first_guarded_slash_is_removed (s : str) (idx : nat) :
  slash_quote_guarded None s = true ->
  JS.indexOf s (lit "/'") 0 = Some idx ->
  JS.replaceAll Re.symmetric s = s /\
  JS.replaceAll (Re.leading Re.is_slashy) s = s /\
  leadingSlashPass s = firstn idx s ++ DQUOTE :: skipn (idx + 2) s.
Proof.
  intros G Hi.
  assert (L : JS.replaceAll (Re.leading Re.is_slashy) s = s)
    by (apply replaceAll_from_no_match, guarded_leading_no_match, G).
  split; [apply replaceAll_from_no_match, guarded_no_match, G|].
  split; [exact L|].
  destruct (literal_replacements_after_leading s) as [_ [_ ->]].
  rewrite L.
  assert (Hlen : 0 < length s)
    by (destruct s; [discriminate|cbn [length]; lia]).
  apply indexOf_some in Hi as (_ & pre & rest & E & Hidx & Hmin);
    [|assumption].
  subst s. unfold JS.replaceFirst.
  rewrite replaceFirst_from_first.
  - rewrite firstn_exact by assumption.
    replace (skipn (idx + 2) (pre ++ lit "/'" ++ rest)) with rest;
      [reflexivity|].
    rewrite app_assoc. symmetry. apply skipn_exact.
    rewrite length_app. cbn [lit length]. lia.
  - intros pre' rest' E'. rewrite Hidx. apply (Hmin pre' rest' E'). lia.
Qed.

Lemma first_guarded_slash_is_removed_witness :
  JS.replaceAll Re.symmetric (lit "{'url':'https://example.com/'}")
  = lit "{'url':'https://example.com/'}" /\
  JS.replaceAll (Re.leading Re.is_slashy) (lit "{'url':'https://example.com/'}")
  = lit "{'url':'https://example.com/'}" /\
  leadingSlashPass (lit "{'url':'https://example.com/'}")
  = firstn 27 (lit "{'url':'https://example.com/'}")
    ++ DQUOTE :: skipn (27 + 2) (lit "{'url':'https://example.com/'}").
Proof.
  apply (first_guarded_slash_is_removed
           (lit "{'url':'https://example.com/'}") 27);
    vm_compute; reflexivity.
Defined.

(** The deep cleaner as the chain of its steps. *)
Lemma grafanaDeepClean_steps (s : str) :
  grafanaDeepClean s =
  JS.replaceAll Re.trailing_comma
  (Re.strip_outer_quotes LBRACK RBRACK
  (Re.strip_outer_quotes LBRACE RBRACE
  (JS.replaceAll Re.trailing_slash
  (unquoteJsonStringValues
  (JS.replaceAll Re.trailing_slash
  (JS.replaceAll (Re.leading Re.is_slashy)
  (JS.replaceAll Re.symmetric
  (fst (unescapeLoop
  (leadingSlashPass
  (JS.replaceAll Re.symmetric
  (tryUnwrapString
  (tryUnwrapString
  (JS.replaceAll (JS.literally [CR] [LF])
  (JS.replaceAll (JS.literally [CR; LF] [LF])
  (Re.strip_bom
  s)))))))))))))))).
Proof. reflexivity. Qed.

(** What this means for a document: a URL that ends in a slash loses the
    slash as soon as the document needs the deep cleaner. *)
Example url_final_slash_is_lost :
  cleanAndParseJson (lit "{'url':'https://example.com/',}")
  = ParseOk (JSON.JObject [(lit "url", JSON.JString (lit "https://example.com"))])
            (lit "{'url':'https://example.com'}").
Proof. vm_compute; reflexivity. Qed.

(* ================================================================== *)
(** * What the rules keep *)
(* ================================================================== *)

(** ** Global replacement with matches that only delete *)

Section Deleting.

Variable keep : char -> bool.
Variable m : JS.matcher.

(** Every match of [m] keeps the code units of the class [keep] that it
    covers, in their order, and is not longer than the input. *)
Hypothesis m_deletes :
  forall prev s rep n,
    m prev s = Some (rep, n) ->
    filter keep rep = filter keep (firstn n s) /\
    length rep <= n /\ n <= length s.

Lemma replaceAll_from_keeps (s : str) :
  forall prev k,
    k <= length s ->
    filter keep (JS.replaceAll_from m prev s k) = filter keep (skipn k s) /\
    length (JS.replaceAll_from m prev s k) + k <= length s.
Proof.
  induction s as [|c s IH]; intros prev k Hk; cbn [length] in Hk.
  - assert (k = 0) by lia; subst k. cbn [JS.replaceAll_from skipn].
    destruct (m prev []) as [[rep n]|] eqn:E; [|split; reflexivity].
    apply m_deletes in E as (E1 & E2 & E3). cbn [length] in E3.
    assert (n = 0) by lia; subst n. destruct rep; [|cbn [length] in E2; lia].
    split; reflexivity.
  - destruct k as [|k]; cbn [JS.replaceAll_from skipn].
    + destruct (m prev (c :: s)) as [[rep [|n]]|] eqn:E.
      * apply m_deletes in E as (E1 & E2 & E3).
        destruct rep; [|cbn [length] in E2; lia].
        destruct (IH (Some c) 0 ltac:(lia)) as [I1 I2].
        cbn [app skipn filter length] in *. rewrite I1. split; [reflexivity|lia].
      * apply m_deletes in E as (E1 & E2 & E3). cbn [length] in E3.
        destruct (IH (Some c) n ltac:(lia)) as [I1 I2].
        rewrite filter_app, I1, E1, <- filter_app.
        change (firstn (S n) (c :: s) ++ skipn n s)
          with (firstn (S n) (c :: s) ++ skipn (S n) (c :: s)).
        rewrite firstn_skipn, length_app. split; [reflexivity|].
        cbn [length]. lia.
      * destruct (IH (Some c) 0 ltac:(lia)) as [I1 I2].
        cbn [skipn filter length] in *. rewrite I1. split; [reflexivity|lia].
    + destruct (IH (Some c) k ltac:(lia)) as [I1 I2].
      split; [exact I1|cbn [length]; lia].
Qed.

Lemma replaceAll_keeps (s : str) :
  filter keep (JS.replaceAll m s) = filter keep s /\
  length (JS.replaceAll m s) <= length s.
Proof.
  destruct (replaceAll_from_keeps s None 0 ltac:(lia)) as [A B].
  cbn [skipn] in A. split; [exact A|]. unfold JS.replaceAll. lia.
Qed.

Lemma replaceFirst_from_keeps (s : str) :
  forall prev,
    filter keep (JS.replaceFirst_from m prev s) = filter keep s /\
    length (JS.replaceFirst_from m prev s) <= length s.
Proof.
  induction s as [|c s IH]; intros prev; cbn [JS.replaceFirst_from].
  - destruct (m prev []) as [[rep n]|] eqn:E; [|split; reflexivity].
    apply m_deletes in E as (E1 & E2 & E3). cbn [length] in E3.
    assert (n = 0) by lia; subst n. destruct rep; [|cbn [length] in E2; lia].
    split; reflexivity.
  - destruct (m prev (c :: s)) as [[rep n]|] eqn:E.
    + apply m_deletes in E as (E1 & E2 & E3).
      rewrite filter_app, E1, <- filter_app, firstn_skipn.
      split; [reflexivity|].
      rewrite length_app, length_skipn. lia.
    + destruct (IH (Some c)) as [I1 I2].
      cbn [filter length]. rewrite I1. split; [reflexivity|lia].
Qed.

End Deleting.

(** ** What each expression deletes *)

Lemma filter_out (p : char -> bool) (l : str) :
  forallb p l = true -> filter (fun c => negb (p c)) l = [].
Proof.
  induction l as [|c l IH]; [reflexivity|]. cbn [forallb filter].
  intros H; apply andb_prop in H as [Hc Hl]. rewrite Hc. cbn [negb].
  now apply IH.
Qed.

Lemma span_end_parts (p : char -> bool) (body : str) :
  body = fst (span_end p body) ++ snd (span_end p body) /\
  forallb p (snd (span_end p body)) = true.
Proof.
  unfold span_end.
  pose proof (span_app p (rev body)) as A.
  pose proof (span_all p (rev body)) as B.
  destruct (span p (rev body)) as [run before]. cbn [fst snd] in *.
  split.
  - rewrite <- rev_app_distr, A. symmetry; apply rev_involutive.
  - rewrite forallb_forall in *. intros x Hx. apply B, in_rev, Hx.
Qed.

Ltac lengths := repeat (rewrite length_app || (progress (cbn [length]))).

Lemma symmetric_some (prev : option char) (s rep : str) (n : nat) :
  Re.symmetric prev s = Some (rep, n) ->
  exists run content run2 rest,
    s = (run ++ DQUOTE :: content ++ run2 ++ [DQUOTE]) ++ rest /\
    forallb Re.is_slashy run = true /\
    forallb Re.is_slashy run2 = true /\
    rep = DQUOTE :: content ++ [DQUOTE] /\
    n = length (run ++ DQUOTE :: content ++ run2 ++ [DQUOTE]).
Proof.
  unfold Re.symmetric.
  destruct (Re.lookbehind_ok prev); [|discriminate].
  pose proof (span_app Re.is_slashy s) as A.
  pose proof (span_all Re.is_slashy s) as B.
  destruct (span Re.is_slashy s) as [[|c run] [|q after]]; try discriminate.
  cbn [fst snd] in A, B.
  destruct (ceq_spec q DQUOTE) as [->|]; [|discriminate].
  pose proof (span_app Re.not_quote after) as A2.
  pose proof (span_stop Re.not_quote after) as S2.
  destruct (span Re.not_quote after) as [body [|q2 rest]]; [discriminate|].
  cbn [fst snd] in A2, S2.
  specialize (S2 q2 rest eq_refl). unfold Re.not_quote in S2.
  apply negb_false_iff, ceq_eq in S2. subst q2.
  destruct (span_end_parts Re.is_slashy body) as [A3 B3].
  destruct (span_end Re.is_slashy body) as [content [|r run2]];
    [discriminate|].
  cbn [fst snd] in A3, B3.
  intros [= <- <-].
  exists (c :: run), content, (r :: run2), rest.
  repeat split; auto.
  - subst s after body. cbn [app]. f_equal.
    repeat (rewrite <- app_assoc; cbn [app]). reflexivity.
  - rewrite A3. lengths. lia.
Qed.

Lemma symmetric_deletes (prev : option char) (s rep : str) (n : nat) :
  Re.symmetric prev s = Some (rep, n) ->
  filter not_slashy rep = filter not_slashy (firstn n s) /\
  length rep <= n /\ n <= length s.
Proof.
  intros H. apply symmetric_some in H
    as (run & content & run2 & rest & -> & Hr & Hr2 & -> & ->).
  rewrite firstn_exact by reflexivity.
  split; [|split].
  - rewrite !filter_app. cbn [filter]. rewrite !filter_app. cbn [filter].
    change not_slashy with (fun c => negb (Re.is_slashy c)).
    rewrite (filter_out Re.is_slashy run), (filter_out Re.is_slashy run2)
      by assumption.
    reflexivity.
  - lengths. lia.
  - lengths. lia.
Qed.

Lemma leading_deletes (X : char -> bool) (prev : option char) (s rep : str)
    (n : nat) :
  Re.leading X prev s = Some (rep, n) ->
  filter (fun c => negb (X c)) rep
  = filter (fun c => negb (X c)) (firstn n s) /\
  length rep <= n /\ n <= length s.
Proof.
  intros H. apply leading_some in H
    as (-> & _ & run & rest & -> & _ & Hrun & ->).
  rewrite firstn_exact by reflexivity.
  rewrite (filter_out X run) by assumption.
  repeat split; lengths; lia.
Qed.

Lemma trailing_slash_some (prev : option char) (s rep : str) (n : nat) :
  Re.trailing_slash prev s = Some (rep, n) ->
  exists content run rest,
    s = (DQUOTE :: content ++ run ++ [DQUOTE]) ++ rest /\
    forallb Re.is_slash run = true /\
    rep = DQUOTE :: content ++ [DQUOTE] /\
    n = length (DQUOTE :: content ++ run ++ [DQUOTE]).
Proof.
  unfold Re.trailing_slash. destruct s as [|q s1]; [discriminate|].
  destruct (ceq_spec q DQUOTE) as [->|]; [|discriminate].
  pose proof (span_app Re.not_quote_nor_slash s1) as A.
  destruct (span Re.not_quote_nor_slash s1) as [content after].
  cbn [fst snd] in A.
  pose proof (span_app Re.is_slash after) as A2.
  pose proof (span_all Re.is_slash after) as B2.
  destruct (span Re.is_slash after) as [[|c run] [|q2 rest]];
    try discriminate.
  cbn [fst snd] in A2, B2.
  destruct (ceq_spec q2 DQUOTE) as [->|]; [|discriminate].
  intros [= <- <-].
  exists content, (c :: run), rest. repeat split; auto.
  - rewrite <- A, <- A2. cbn [app]. rewrite <- !app_assoc. cbn [app].
    now rewrite <- !app_assoc.
  - lengths. lia.
Qed.

Lemma trailing_slash_deletes (prev : option char) (s rep : str) (n : nat) :
  Re.trailing_slash prev s = Some (rep, n) ->
  filter not_slash rep = filter not_slash (firstn n s) /\
  length rep <= n /\ n <= length s.
Proof.
  intros H. apply trailing_slash_some in H
    as (content & run & rest & -> & Hr & -> & ->).
  rewrite firstn_exact by reflexivity.
  split; [|split].
  - cbn [filter]. rewrite !filter_app.
    change not_slash with (fun c => negb (Re.is_slash c)).
    rewrite (filter_out Re.is_slash run) by assumption. reflexivity.
  - lengths. lia.
  - lengths. lia.
Qed.

Lemma trailing_comma_some (prev : option char) (s rep : str) (n : nat) :
  Re.trailing_comma prev s = Some (rep, n) ->
  exists ws b rest,
    s = (COMMA :: ws ++ [b]) ++ rest /\
    forallb JS.is_white_space ws = true /\
    (b = RBRACE \/ b = RBRACK) /\
    rep = [b] /\ n = length (COMMA :: ws ++ [b]).
Proof.
  unfold Re.trailing_comma. destruct s as [|c s1]; [discriminate|].
  destruct (ceq_spec c COMMA) as [->|]; [|discriminate].
  pose proof (span_app JS.is_white_space s1) as A.
  pose proof (span_all JS.is_white_space s1) as B.
  destruct (span JS.is_white_space s1) as [ws [|b rest]]; [discriminate|].
  cbn [fst snd] in A, B.
  destruct (ceq b RBRACE || ceq b RBRACK) eqn:Hb; [|discriminate].
  intros [= <- <-].
  exists ws, b, rest. repeat split; auto.
  - rewrite <- A. cbn [app]. now rewrite <- app_assoc.
  - apply orb_prop in Hb as [Hb|Hb]; apply ceq_eq in Hb; auto.
  - lengths. lia.
Qed.

Lemma literally_deletes (keep : char -> bool) (pat rep : str)
    (prev : option char) (s rep' : str) (n : nat) :
  filter keep rep = filter keep pat ->
  length rep <= length pat ->
  JS.literally pat rep prev s = Some (rep', n) ->
  filter keep rep' = filter keep (firstn n s) /\
  length rep' <= n /\ n <= length s.
Proof.
  intros Hf Hlen. unfold JS.literally.
  destruct (is_prefix pat s) eqn:E; [|discriminate].
  intros [= <- <-]. pose proof (is_prefix_length _ _ E) as L.
  apply is_prefix_spec in E as [rest ->].
  rewrite firstn_exact by reflexivity. auto.
Qed.

Lemma filter_nothing (l : str) : filter (fun _ : char => false) l = [].
Proof. induction l; [reflexivity|assumption]. Qed.

Lemma literally_shrinks (pat rep : str) (prev : option char) (s rep' : str)
    (n : nat) :
  length rep <= length pat ->
  JS.literally pat rep prev s = Some (rep', n) ->
  filter (fun _ => false) rep' = filter (fun _ => false) (firstn n s) /\
  length rep' <= n /\ n <= length s.
Proof.
  intros Hlen. apply literally_deletes; [|assumption].
  now rewrite !filter_nothing.
Qed.

Lemma trailing_comma_deletes (prev : option char) (s rep : str) (n : nat) :
  Re.trailing_comma prev s = Some (rep, n) ->
  filter not_comma_nor_space rep
  = filter not_comma_nor_space (firstn n s) /\
  length rep <= n /\ n <= length s.
Proof.
  intros H. apply trailing_comma_some in H
    as (ws & b & rest & -> & Hws & Hb & -> & ->).
  rewrite firstn_exact by reflexivity.
  split; [|split; lengths; lia].
  cbn [filter]. rewrite filter_app.
  change (not_comma_nor_space COMMA) with false. cbv iota.
  replace (filter not_comma_nor_space ws) with (@nil char); [reflexivity|].
  symmetry. clear - Hws. induction ws as [|w ws IH]; [reflexivity|].
  cbn [forallb filter] in *. apply andb_prop in Hws as [Hw Hws].
  unfold not_comma_nor_space at 1. rewrite Hw, orb_true_r. cbn [negb].
  now apply IH.
Qed.

(** X14.  What the rules of the deep cleaner and of strategies 5 and 6 can
    take out of a text.  The symmetric rule, the leading rule and lines
    312-315 delete slashes and backslashes and nothing else; the leading rule
    of strategy 5 and the trailing-slash rule delete slashes and nothing
    else; the trailing-comma rule deletes commas and white space and nothing
    else.  Every other code unit stays, in its place among the others. *)
Theorem rules_only_delete_their_characters (s : str) :
  filter not_slashy (JS.replaceAll Re.symmetric s) = filter not_slashy s /\
  filter not_slashy (JS.replaceAll (Re.leading Re.is_slashy) s)
  = filter not_slashy s /\
  filter not_slashy (leadingSlashPass s) = filter not_slashy s /\
  filter not_slash (JS.replaceAll (Re.leading Re.is_slash) s)
  = filter not_slash s /\
  filter not_slash (JS.replaceAll Re.trailing_slash s) = filter not_slash s /\
  filter not_comma_nor_space (JS.replaceAll Re.trailing_comma s)
  = filter not_comma_nor_space s.
Proof.
  assert (L : forall t, filter not_slashy
                          (JS.replaceAll (Re.leading Re.is_slashy) t)
                        = filter not_slashy t).
  { intros t. apply (replaceAll_keeps not_slashy _
                       (leading_deletes Re.is_slashy)). }
  assert (F : forall pat t,
             filter not_slashy [DQUOTE] = filter not_slashy pat ->
             1 <= length pat ->
             filter not_slashy
               (JS.replaceFirst (JS.literally pat [DQUOTE]) t)
             = filter not_slashy t).
  { intros pat t Hf Hl.
    apply (replaceFirst_from_keeps not_slashy (JS.literally pat [DQUOTE])).
    intros prev u rep n. now apply literally_deletes. }
  split; [apply (replaceAll_keeps not_slashy _ symmetric_deletes)|].
  split; [apply L|].
  split; [unfold leadingSlashPass;
          rewrite !F by (reflexivity || (cbn [lit length]; lia)); apply L|].
  split; [apply (replaceAll_keeps not_slash _ (leading_deletes Re.is_slash))|].
  split; [apply (replaceAll_keeps not_slash _ trailing_slash_deletes)|].
  apply (replaceAll_keeps not_comma_nor_space _ trailing_comma_deletes).
Qed.

(* ================================================================== *)
(** * Cleaning never makes a text longer *)
(* ================================================================== *)

Lemma trim_le (s : str) : length (JS.trim s) <= length s.
Proof.
  unfold JS.trim, JS.trimEnd, JS.trimStart.
  pose proof (span_rest_length JS.is_white_space s) as A.
  destruct (span_end_parts JS.is_white_space
              (snd (span JS.is_white_space s))) as [B _].
  apply (f_equal (@length char)) in B. rewrite length_app in B. lia.
Qed.

Lemma strip_bom_le (s : str) : length (Re.strip_bom s) <= length s.
Proof.
  destruct s as [|c s]; cbn [Re.strip_bom length]; [lia|].
  destruct (ceq c BOM); cbn [length]; lia.
Qed.

Lemma strip_outer_quotes_le (O C : char) (s : str) :
  length (Re.strip_outer_quotes O C s) <= length s.
Proof.
  unfold Re.strip_outer_quotes.
  destruct ((4 <=? length s) && is_prefix [DQUOTE; O] s
            && is_prefix [DQUOTE; C] (rev s)); [|lia].
  rewrite slice_1_m1. destruct s as [|c s]; [cbn; lia|].
  apply Nat.lt_le_incl, tl_removelast_length. discriminate.
Qed.

Lemma replaceAll_literally_le (pat rep s : str) :
  length rep <= length pat ->
  length (JS.replaceAll (JS.literally pat rep) s) <= length s.
Proof.
  intros H. apply (replaceAll_keeps (fun _ => false) (JS.literally pat rep)).
  intros prev u rep' n. now apply literally_shrinks.
Qed.

Lemma replaceFirst_literally_le (pat rep s : str) :
  length rep <= length pat ->
  length (JS.replaceFirst (JS.literally pat rep) s) <= length s.
Proof.
  intros H.
  apply (replaceFirst_from_keeps (fun _ => false) (JS.literally pat rep)).
  intros prev u rep' n. now apply literally_shrinks.
Qed.

Lemma symmetric_le (s : str) :
  length (JS.replaceAll Re.symmetric s) <= length s.
Proof. apply (replaceAll_keeps not_slashy _ symmetric_deletes). Qed.

Lemma leading_le (X : char -> bool) (s : str) :
  length (JS.replaceAll (Re.leading X) s) <= length s.
Proof. apply (replaceAll_keeps _ _ (leading_deletes X)). Qed.

Lemma trailing_slash_le (s : str) :
  length (JS.replaceAll Re.trailing_slash s) <= length s.
Proof. apply (replaceAll_keeps not_slash _ trailing_slash_deletes). Qed.

Lemma trailing_comma_le (s : str) :
  length (JS.replaceAll Re.trailing_comma s) <= length s.
Proof.
  apply (replaceAll_keeps not_comma_nor_space _ trailing_comma_deletes).
Qed.

Lemma leadingSlashPass_le (s : str) :
  length (leadingSlashPass s) <= length s.
Proof.
  unfold leadingSlashPass.
  repeat (eapply Nat.le_trans;
          [apply replaceFirst_literally_le; cbn [lit length]; lia|]).
  apply leading_le.
Qed.

Lemma unescapeLoop_le (s : str) : length (fst (unescapeLoop s)) <= length s.
Proof.
  destruct (unescapeLoop_iter s) as (k & _ & ->).
  apply iter_unescapeOnce_keeps_rest.
Qed.

Lemma unquote_le (s : str) :
  length (unquoteJsonStringValues s) <= length s.
Proof.
  pose proof (unquote_while_steps (S (length s)) s _ (unquote_total s))
    as [Hsteps _].
  induction Hsteps as [s0|s0 s1 s2 Hstep _ IH]; [lia|].
  apply unquote_step_length in Hstep. lia.
Qed.

Lemma grafanaDeepClean_le (s : str) :
  length (grafanaDeepClean s) <= length s.
Proof.
  rewrite grafanaDeepClean_steps.
  eapply Nat.le_trans; [apply trailing_comma_le|].
  eapply Nat.le_trans; [apply strip_outer_quotes_le|].
  eapply Nat.le_trans; [apply strip_outer_quotes_le|].
  eapply Nat.le_trans; [apply trailing_slash_le|].
  eapply Nat.le_trans; [apply unquote_le|].
  eapply Nat.le_trans; [apply trailing_slash_le|].
  eapply Nat.le_trans; [apply leading_le|].
  eapply Nat.le_trans; [apply symmetric_le|].
  eapply Nat.le_trans; [apply unescapeLoop_le|].
  eapply Nat.le_trans; [apply leadingSlashPass_le|].
  eapply Nat.le_trans; [apply symmetric_le|].
  eapply Nat.le_trans; [apply tryUnwrapString_le|].
  eapply Nat.le_trans; [apply tryUnwrapString_le|].
  eapply Nat.le_trans; [apply replaceAll_literally_le; cbn [length]; lia|].
  eapply Nat.le_trans; [apply replaceAll_literally_le; cbn [length]; lia|].
  apply strip_bom_le.
Qed.

Lemma candidate_le (strat : strategy) (raw c : str) :
  In strat strategies -> strat raw = Some c -> length c <= length raw.
Proof.
  pose proof (trim_le raw) as T.
  unfold strategies. cbn [In].
  intros [<-|[<-|[<-|[<-|[<-|[<-|[<-|[<-|[]]]]]]]]].
  - intros [= <-]. lia.
  - intros [= <-]. exact T.
  - intros [= <-]. pose proof (tryUnwrapString_le (JS.trim raw)). lia.
  - unfold strategy4. intros H. apply wrapAndUnescape_some in H
      as (_ & _ & H). lia.
  - intros [= <-].
    pose proof (replaceAll_literally_le [BACKSLASH; DQUOTE] [DQUOTE]
                  (JS.replaceAll (Re.leading Re.is_slash) (JS.trim raw))
                  ltac:(cbn [length]; lia)).
    pose proof (leading_le Re.is_slash (JS.trim raw)). lia.
  - intros [= <-]. pose proof (symmetric_le (JS.trim raw)). lia.
  - intros [= <-]. pose proof (grafanaDeepClean_le (JS.trim raw)). lia.
  - intros [= <-].
    pose proof (tryUnwrapString_le (grafanaDeepClean (JS.trim raw))).
    pose proof (grafanaDeepClean_le (JS.trim raw)). lia.
Qed.

Lemma try_strategies_best_le (todo : list strategy) (raw : str) :
  forall best,
    (forall strat c, In strat todo -> strat raw = Some c ->
                     length c <= length raw) ->
    length best <= length raw ->
    length (bestAttempt (try_strategies todo raw best)) <= length raw.
Proof.
  induction todo as [|strat todo IH]; intros best Hc Hb;
    cbn [try_strategies]; [exact Hb|].
  destruct (strat raw) as [c|] eqn:E.
  - assert (length c <= length raw) by (apply (Hc strat); [now left|exact E]).
    destruct (JSON.parse c); [assumption|].
    apply IH; [|assumption]. intros s' c' Hin. apply Hc. now right.
  - apply IH; [|assumption]. intros s' c' Hin. apply Hc. now right.
Qed.

(** X15.  Cleaning never makes a text longer: the deep cleaner gives a text
    that is at most as long as its input, and whatever the pipeline returns
    as cleaned text or as best attempt is at most as long as the raw
    input. *)
Theorem cleaning_never_lengthens (raw : str) :
  length (grafanaDeepClean raw) <= length raw /\
  length (bestAttempt (cleanAndParseJson raw)) <= length raw.
Proof.
  split; [apply grafanaDeepClean_le|].
  apply try_strategies_best_le; [|apply Nat.le_refl].
  intros strat c. apply candidate_le.
Qed.

(* ================================================================== *)
(** * The two decoders on the same text *)
(* ================================================================== *)

(** X16.  On a text between two double quotes [tryUnwrapString] does what
    [wrapAndUnescape] does on the text itself, and where that one throws it
    gives the text as it is.  So a wrapped text that holds an unescaped
    double quote, as a wrapped JSON document does, or a control character,
    loses exactly its two outer quotes and is not unescaped. *)
Theorem tryUnwrapString_of_wrapped (body : str) :
  tryUnwrapString ([DQUOTE] ++ body ++ [DQUOTE])
  = match wrapAndUnescape body with
    | Some t => t
    | None => body
    end /\
  (has_unescaped_quote body = true \/ existsb is_control body = true ->
   tryUnwrapString ([DQUOTE] ++ body ++ [DQUOTE]) = body).
Proof.
  assert (E : tryUnwrapString ([DQUOTE] ++ body ++ [DQUOTE])
              = match wrapAndUnescape body with
                | Some t => t
                | None => body
                end).
  { unfold tryUnwrapString, wrapAndUnescape.
    change ([DQUOTE] ++ body ++ [DQUOTE]) with (DQUOTE :: body ++ [DQUOTE]).
    change (DQUOTE :: body ++ [DQUOTE])
      with ((DQUOTE :: body) ++ [DQUOTE]) at 2.
    rewrite endsWith_last.
    cbn [JS.startsWith is_prefix]. rewrite ceq_refl. cbn [andb].
    change ([DQUOTE] ++ body ++ [DQUOTE]) with (DQUOTE :: body ++ [DQUOTE]).
    destruct (JSON.parse (DQUOTE :: body ++ [DQUOTE])) as [v|] eqn:P.
    - assert (S : JS.startsWith (DQUOTE :: body ++ [DQUOTE]) [DQUOTE] = true)
        by (cbn [JS.startsWith is_prefix]; now rewrite ceq_refl).
      destruct (parse_quoted_is_string _ v S P) as [t ->]. reflexivity.
    - apply slice_1_m1_outer. }
  split; [exact E|].
  intros H. rewrite E.
  destruct (wrapAndUnescape body) as [t|] eqn:W; [|reflexivity].
  apply wrapAndUnescape_some in W as (Hc & Hq & _).
  destruct H; congruence.
Qed.

Lemma tryUnwrapString_of_wrapped_witness :
  tryUnwrapString ([DQUOTE] ++ lit "{'key':'val'}" ++ [DQUOTE])
  = lit "{'key':'val'}".
Proof.
  apply (proj2 (tryUnwrapString_of_wrapped (lit "{'key':'val'}"))).
  left. vm_compute; reflexivity.
Defined.

(* ================================================================== *)
(** * The trailing-comma rule *)
(* ================================================================== *)

(** A stretch of text in which the expression matches at no code unit is
    copied. *)
Lemma replaceAll_from_copy (m : JS.matcher) (w rest : str) :
  forall prev,
    (forall c, In c w -> forall p t, m p (c :: t) = None) ->
    JS.replaceAll_from m prev (w ++ rest) 0
    = w ++ JS.replaceAll_from m
             (match w with [] => prev | _ :: _ => Some (last w 0%N) end)
             rest 0.
Proof.
  induction w as [|c w IH]; intros prev H; [reflexivity|].
  cbn [app JS.replaceAll_from].
  rewrite (H c (or_introl eq_refl)). f_equal.
  rewrite IH by (intros d Hd; apply H; now right).
  destruct w; reflexivity.
Qed.

Lemma trailing_comma_other (prev : option char) (c : char) (t : str) :
  not_comma c = true -> Re.trailing_comma prev (c :: t) = None.
Proof.
  unfold not_comma, Re.trailing_comma. now destruct (ceq c COMMA).
Qed.

Lemma trailing_comma_copy (w rest : str) (prev : option char) :
  forallb not_comma w = true ->
  exists prev',
    JS.replaceAll_from Re.trailing_comma prev (w ++ rest) 0
    = w ++ JS.replaceAll_from Re.trailing_comma prev' rest 0.
Proof.
  intros H. eexists. apply replaceAll_from_copy.
  intros c Hc p t. apply trailing_comma_other.
  rewrite forallb_forall in H. now apply H.
Qed.

Lemma trailing_comma_hit (prev : option char) (ws post : str) (b : char) :
  forallb JS.is_white_space ws = true ->
  b = RBRACE \/ b = RBRACK ->
  Re.trailing_comma prev ((COMMA :: ws ++ [b]) ++ post)
  = Some ([b], length (COMMA :: ws ++ [b])).
Proof.
  intros Hws Hb. cbn [app]. rewrite <- app_assoc. cbn [app].
  unfold Re.trailing_comma. rewrite ceq_refl.
  rewrite (span_run JS.is_white_space ws b post Hws)
    by (destruct Hb as [-> | ->]; reflexivity).
  replace (ceq b RBRACE || ceq b RBRACK) with true
    by (destruct Hb as [-> | ->]; reflexivity).
  cbn [length]. rewrite length_app. cbn [length].
  replace (1 + length ws + 1) with (S (length ws + 1)) by lia.
  reflexivity.
Qed.

Lemma trailing_comma_before_comma (prev : option char) (t : str) :
  Re.trailing_comma prev (COMMA :: COMMA :: t) = None.
Proof. reflexivity. Qed.

Lemma trailing_comma_run (k : nat) (ws post : str) (b : char) :
  forallb JS.is_white_space ws = true ->
  b = RBRACE \/ b = RBRACK ->
  forallb not_comma post = true ->
  forall prev,
    JS.replaceAll_from Re.trailing_comma prev
      (repeat COMMA (S k) ++ ws ++ b :: post) 0
    = repeat COMMA k ++ b :: post.
Proof.
  intros Hws Hb Hpost. induction k as [|k IH]; intros prev.
  - change (repeat COMMA 1 ++ ws ++ b :: post)
      with (COMMA :: ws ++ b :: post).
    replace (COMMA :: ws ++ b :: post) with ((COMMA :: ws ++ [b]) ++ post)
      by (cbn [app]; rewrite <- app_assoc; reflexivity).
    rewrite (replaceAll_from_match Re.trailing_comma prev
               (COMMA :: ws ++ [b]) post [b])
      by (try discriminate; now apply trailing_comma_hit).
    cbn [repeat app]. f_equal.
    rewrite <- (app_nil_r post) at 1.
    destruct (trailing_comma_copy post [] (Some (last (COMMA :: ws ++ [b]) 0%N))
                Hpost) as [prev' ->].
    cbn [JS.replaceAll_from]. unfold Re.trailing_comma at 1.
    apply app_nil_r.
  - change (repeat COMMA (S (S k)) ++ ws ++ b :: post)
      with (COMMA :: repeat COMMA (S k) ++ ws ++ b :: post).
    cbn [JS.replaceAll_from].
    change (repeat COMMA (S k) ++ ws ++ b :: post)
      with (COMMA :: repeat COMMA k ++ ws ++ b :: post) at 1.
    rewrite trailing_comma_before_comma.
    rewrite IH. reflexivity.
Qed.

(** X17.  The trailing-comma rule, line 357: where a run of commas, then
    white space, then a closing brace or bracket stands in a text without
    other commas, the last comma of the run goes together with the white
    space.  A single trailing comma is repaired; of a doubled one a comma
    is left, so the text is still no JSON. *)
Theorem trailing_comma_rule_removes_last_comma
    (pre ws post : str) (b : char) (k : nat) :
  forallb not_comma pre = true ->
  forallb JS.is_white_space ws = true ->
  b = RBRACE \/ b = RBRACK ->
  forallb not_comma post = true ->
  JS.replaceAll Re.trailing_comma
    (pre ++ repeat COMMA (S k) ++ ws ++ b :: post)
  = pre ++ repeat COMMA k ++ b :: post.
Proof.
  intros Hpre Hws Hb Hpost. unfold JS.replaceAll.
  destruct (trailing_comma_copy pre (repeat COMMA (S k) ++ ws ++ b :: post)
              None Hpre) as [prev' ->].
  f_equal. now apply trailing_comma_run.
Qed.

Lemma trailing_comma_rule_removes_last_comma_witness :
  JS.replaceAll Re.trailing_comma
    (lit "{'a':[1 2" ++ repeat COMMA 2 ++ [LF; 32%N] ++ RBRACK :: lit "}")
  = lit "{'a':[1 2" ++ repeat COMMA 1 ++ RBRACK :: lit "}".
Proof.
  apply trailing_comma_rule_removes_last_comma.
  - vm_compute; reflexivity.
  - vm_compute; reflexivity.
  - right; reflexivity.
  - vm_compute; reflexivity.
Defined.
